(** * CLAP audio analyzer service: embedding of analyzer.py

    The development follows services/audio-analyzer-clap/analyzer.py:
    the [CLAPAnalyzer] wrapper around the LAION CLAP model, the
    [DatabaseConnection] manager, the queue [Worker] and the
    [TextEmbedHandler].

    Python code runs against collaborators the file does not own: the CLAP
    model, the filesystem, PostgreSQL and Redis.  They are kept in an explicit
    [World]; every function of the source is a computation in the monad
    [M A := World -> result A * World], in which a raised exception keeps the
    state reached so far (which is what [try]/[except]/[finally] observe). *)

From stdpp Require Import base gmap strings list.
From Stdlib Require Import Ascii ZArith Lia.

Open Scope string_scope.
Open Scope list_scope.

(** ** Python strings

    A [str] is modelled as a [string]; a character is a code point below 256. *)

Definition ord (c : ascii) : nat := nat_of_ascii c.

(** [str.isspace] on one character: TAB..CR, FS..US, SPACE, NEL and NBSP are
    the white space code points below 256. *)
Definition isspace (c : ascii) : bool :=
  (((9 <=? ord c) && (ord c <=? 13)) || ((28 <=? ord c) && (ord c <=? 32))
   || (ord c =? 133) || (ord c =? 160))%nat.

Fixpoint lstrip (s : string) : string :=
  match s with
  | EmptyString => EmptyString
  | String c s' => if isspace c then lstrip s' else s
  end.

Fixpoint rstrip (s : string) : string :=
  match s with
  | EmptyString => EmptyString
  | String c s' =>
      match rstrip s' with
      | EmptyString => if isspace c then EmptyString else String c EmptyString
      | r => String c r
      end
  end.

(** [s.strip()] *)
Definition strip (s : string) : string := rstrip (lstrip s).

(** Every character of the string is white space ([""] included). *)
Fixpoint whitespace_only (s : string) : bool :=
  match s with
  | EmptyString => true
  | String c s' => isspace c && whitespace_only s'
  end.

(** Truth value of a [str]: [not s] holds for the empty string only. *)
Definition str_truthy (s : string) : bool :=
  match s with EmptyString => false | _ => true end.

(** Truth value of [d.get(key)]: [None] and [""] are false. *)
Definition truthy (v : option string) : bool :=
  match v with None => false | Some s => str_truthy s end.

(** [s.replace(old, new)] for one-character [old] and [new]. *)
Fixpoint replace (old new : ascii) (s : string) : string :=
  match s with
  | EmptyString => EmptyString
  | String c s' => String (if Ascii.eqb c old then new else c) (replace old new s')
  end.

Definition startswith (p s : string) : bool := String.prefix p s.

Fixpoint endswith_char (c : ascii) (s : string) : bool :=
  match s with
  | EmptyString => false
  | String a EmptyString => Ascii.eqb a c
  | String _ s' => endswith_char c s'
  end.

(** [s[:n]] *)
Definition slice_to (n : nat) (s : string) : string := String.substring 0 n s.

(** [os.path.join(a, b)] of posixpath, for two components. *)
Definition os_path_join (a b : string) : string :=
  if startswith "/" b then b
  else if negb (str_truthy a) || endswith_char "/" a then a +:+ b
  else a +:+ "/" +:+ b.

(** [x is not None] *)
Definition is_not_None {A} (x : option A) : bool :=
  match x with Some _ => true | None => false end.

(** ** Configuration read from the environment at import time *)

Record Config := {
  REDIS_URL : string;
  DATABASE_URL : string;
  MUSIC_PATH : string;
  SLEEP_INTERVAL : Z;
}.

Definition ANALYSIS_QUEUE : string := "audio:analysis:queue".
Definition TEXT_EMBED_CHANNEL : string := "audio:text:embed".
Definition TEXT_EMBED_RESPONSE_PREFIX : string := "audio:text:embed:response:".
Definition MODEL_VERSION : string := "laion-clap-music-v1".

(** ** Exceptions

    All of them are subclasses of [Exception]; [Psycopg2Error] stands for
    [psycopg2.Error] and its subclasses, [OtherException] for any class the
    source does not name. *)

Inductive exception :=
| RuntimeError (msg : string)
| ValueError (msg : string)
| IndexError (msg : string)
| AttributeError (msg : string)
| JSONDecodeError (msg : string)
| Psycopg2Error (msg : string)
| RedisError (msg : string)
| OtherException (msg : string).

Definition is_psycopg2_Error (e : exception) : bool :=
  match e with Psycopg2Error _ => true | _ => false end.

Inductive result (A : Type) :=
| Val (a : A)
| Raise (e : exception).
Arguments Val {A} a.
Arguments Raise {A} e.

Definition raised {A} (r : result A) : bool :=
  match r with Val _ => false | Raise _ => true end.

(** ** Messages taken from the queue and from the request channel

    [json.loads] either raises, or gives a value that is not an object, or
    gives an object; the fields the service reads are strings (section 3 of
    the data model), so an object is a finite map from keys to strings. *)

Inductive payload :=
| Unparsable
| NonObject
| Object (fields : gmap string string).

(** What [json.loads] returns. *)
Inductive pyvalue :=
| PyOther
| PyDict (d : gmap string string).

Section Analyzer.

(** ** numpy arrays

    The element type is left open: [zero32] is the float32 zero that
    [np.zeros] writes and [to_float32] the conversion numpy applies when a
    value of another dtype is stored into a float32 array. *)

Variable scalar : Type.
Variable zero32 : scalar.
Variable to_float32 : scalar -> scalar.

Inductive dtype := float32 | float64.

(** A one-dimensional array. *)
Record ndarray := {
  arr_dtype : dtype;
  tolist : list scalar;
}.

(** [a.shape[0]] *)
Definition shape0 (a : ndarray) : nat := length (tolist a).

(** [np.zeros(n, dtype=np.float32)] *)
Definition np_zeros (n : nat) : ndarray :=
  {| arr_dtype := float32; tolist := replicate n zero32 |}.

(** The elements of [a] as stored into a float32 array. *)
Definition as_float32 (a : ndarray) : list scalar :=
  match arr_dtype a with
  | float32 => tolist a
  | float64 => map to_float32 (tolist a)
  end.

(** [a.astype(np.float32)] *)
Definition astype_float32 (a : ndarray) : ndarray :=
  {| arr_dtype := float32; tolist := as_float32 a |}.

(** [padded[:n] = values] for a float32 [padded]: the slice has
    [min n (len padded)] elements; [values] must have that many, or one
    (which is then broadcast), else numpy raises [ValueError]. *)
Definition setitem_prefix (padded : ndarray) (n : nat) (values : ndarray)
  : result ndarray :=
  let k := Nat.min n (shape0 padded) in
  if (shape0 values =? k)%nat then
    Val {| arr_dtype := arr_dtype padded;
           tolist := as_float32 values ++ drop k (tolist padded) |}
  else
    match as_float32 values with
    | [x] => Val {| arr_dtype := arr_dtype padded;
                    tolist := replicate k x ++ drop k (tolist padded) |}
    | _ => Raise (ValueError "could not broadcast input array")
    end.

(** [embeddings[0]] *)
Definition getitem0 (embeddings : list ndarray) : result ndarray :=
  match embeddings with
  | [] => Raise (IndexError "index 0 is out of bounds")
  | e :: _ => Val e
  end.

(** ** The CLAP model

    [laion_clap.CLAP_Module] is a collaborator: each of its two inference
    methods either raises or returns one row per input. *)

Record CLAP_Module := {
  get_audio_embedding_from_filelist : list string -> result (list ndarray);
  module_get_text_embedding : list string -> result (list ndarray);
}.

Record CLAPAnalyzer := {
  model : option CLAP_Module;
}.

(** ** The persistent store *)

(** The columns of "Track" the service writes.  The retry count is an
    integer without bound: the width of the column belongs to the schema,
    which the service does not define. *)
Record TrackRow := {
  Track_id : string;
  analysisStatus : option string;
  analysisError : option string;
  analysisRetryCount : option Z;
}.

Record EmbeddingRow := {
  track_id : string;
  embedding : list scalar;
  model_version : string;
  analyzed_at : Z;
}.

Record Tables := {
  Track : list TrackRow;
  track_embeddings : list EmbeddingRow;
}.

(** The four SQL statements of the source. *)
Inductive statement :=
| SELECT_1
| UPDATE_status (status : string) (id : string)
| UPDATE_failed (error : string) (id : string)
| INSERT_embedding (id : string) (vector : list scalar) (version : string)
    (at_ : Z).

(** [COALESCE(x, 0)] *)
Definition COALESCE (x : option Z) (d : Z) : Z := default d x.

(** UPDATE "Track" SET "analysisStatus" = %s WHERE id = %s *)
Definition update_status (status id : string) (rows : list TrackRow)
  : list TrackRow :=
  map (fun r =>
         if String.eqb (Track_id r) id then
           {| Track_id := Track_id r;
              analysisStatus := Some status;
              analysisError := analysisError r;
              analysisRetryCount := analysisRetryCount r |}
         else r) rows.

(** UPDATE "Track" SET "analysisStatus" = 'failed', "analysisError" = %s,
    "analysisRetryCount" = COALESCE("analysisRetryCount", 0) + 1
    WHERE id = %s *)
Definition update_failed (error id : string) (rows : list TrackRow)
  : list TrackRow :=
  map (fun r =>
         if String.eqb (Track_id r) id then
           {| Track_id := Track_id r;
              analysisStatus := Some "failed";
              analysisError := Some error;
              analysisRetryCount :=
                Some (COALESCE (analysisRetryCount r) 0 + 1)%Z |}
         else r) rows.

(** INSERT INTO track_embeddings (...) VALUES (...)
    ON CONFLICT (track_id) DO UPDATE SET embedding = EXCLUDED.embedding,
    model_version = EXCLUDED.model_version,
    analyzed_at = EXCLUDED.analyzed_at *)
Definition insert_embedding (new : EmbeddingRow) (rows : list EmbeddingRow)
  : list EmbeddingRow :=
  if existsb (fun r => String.eqb (track_id r) (track_id new)) rows then
    map (fun r =>
           if String.eqb (track_id r) (track_id new) then
             {| track_id := track_id r;
                embedding := embedding new;
                model_version := model_version new;
                analyzed_at := analyzed_at new |}
           else r) rows
  else rows ++ [new].

Definition run_statement (s : statement) (t : Tables) : Tables :=
  match s with
  | SELECT_1 => t
  | UPDATE_status status id =>
      {| Track := update_status status id (Track t);
         track_embeddings := track_embeddings t |}
  | UPDATE_failed error id =>
      {| Track := update_failed error id (Track t);
         track_embeddings := track_embeddings t |}
  | INSERT_embedding id v ver ts =>
      {| Track := Track t;
         track_embeddings :=
           insert_embedding
             {| track_id := id; embedding := v; model_version := ver;
                analyzed_at := ts |} (track_embeddings t) |}
  end.

(** ** JSON values written by the service *)

Inductive json :=
| JNull
| JBool (b : bool)
| JString (s : string)
| JArray (items : list scalar).

(** ** Log output *)

Inductive level := INFO | WARNING | ERROR.

(** One constructor per message of the source, with the values its f-string
    interpolates. *)
Inductive message :=
| Loading_model
| Model_loaded
| Failed_to_load_model (e : exception)
| Audio_file_not_found (audio_path : string)
| Unexpected_embedding_dimension (shape : nat)
| Failed_to_generate_audio_embedding (audio_path : string) (e : exception)
| Empty_text_provided
| Failed_to_generate_text_embedding (e : exception)
| Connected_to_PostgreSQL
| Reconnecting_to_database
| Worker_starting (worker_id : Z)
| Worker_database_error (worker_id : Z) (e : exception)
| Worker_error (worker_id : Z) (e : exception)
| Worker_stopped (worker_id : Z)
| Invalid_job (job : pyvalue)
| Worker_processing_track (worker_id : Z) (id : string)
| Worker_completed_track (worker_id : Z) (id : string)
| Failed_to_update_track_status (e : exception)
| Track_failed (id : string) (error : string)
| Failed_to_mark_track_as_failed (e : exception)
| Failed_to_store_embedding (id : string) (e : exception)
| Text_embed_request_missing_requestId
| Processing_text_embed_request (request_id : string)
| Text_embed_response_sent (request_id : string)
| Failed_to_handle_text_embed_request (e : exception).

Inductive output :=
| logger (lvl : level) (m : message)
| traceback (e : exception).

(** ** Calls that leave the process *)

Inductive call :=
| os_path_exists (path : string)
| audio_inference (filelist : list string)
| text_inference (texts : list string)
| psycopg2_connect (url : string)
| set_client_encoding
| register_vector
| conn_cursor
| cursor_execute (s : statement)
| conn_commit
| conn_rollback
| conn_close
| redis_blpop (key : string) (timeout : Z)
| redis_publish (channel : string) (message : gmap string json)
| time_sleep (seconds : Z).

(** ** The world

    [committed] is what PostgreSQL holds; [conn] is [self.db.conn], [None]
    when there is no connection, and carries the tables as the open
    transaction sees them once a statement has run in it.  [script] fixes
    what the next calls to psycopg2 and to redis do: [None] (and an
    exhausted script) lets the call succeed, [Some e] makes it raise [e].
    [trace] records every call that left the process, with [false] for the
    ones that raised.  [stop_in] is the stop event: [Some 0] is set,
    [Some (S n)] is set after [n + 1] more looks, [None] is never set. *)

Record Connection := {
  transaction : option Tables;
}.

Record World := {
  files : gset string;
  committed : Tables;
  conn : option Connection;
  queue : list payload;
  clock : Z;
  stop_in : option nat;
  script : list (option exception);
  trace : list (call * bool);
  log : list output;
}.

(** The tables as the session sees them. *)
Definition view (w : World) : Tables :=
  match conn w with
  | Some {| transaction := Some t |} => t
  | _ => committed w
  end.

Definition set_committed (t : Tables) (w : World) : World :=
  {| files := files w; committed := t; conn := conn w; queue := queue w;
     clock := clock w; stop_in := stop_in w; script := script w;
     trace := trace w; log := log w |}.

Definition set_conn (c : option Connection) (w : World) : World :=
  {| files := files w; committed := committed w; conn := c; queue := queue w;
     clock := clock w; stop_in := stop_in w; script := script w;
     trace := trace w; log := log w |}.

Definition set_queue (q : list payload) (w : World) : World :=
  {| files := files w; committed := committed w; conn := conn w; queue := q;
     clock := clock w; stop_in := stop_in w; script := script w;
     trace := trace w; log := log w |}.

Definition set_clock (t : Z) (w : World) : World :=
  {| files := files w; committed := committed w; conn := conn w;
     queue := queue w; clock := t; stop_in := stop_in w; script := script w;
     trace := trace w; log := log w |}.

Definition set_stop_in (s : option nat) (w : World) : World :=
  {| files := files w; committed := committed w; conn := conn w;
     queue := queue w; clock := clock w; stop_in := s; script := script w;
     trace := trace w; log := log w |}.

Definition set_script (s : list (option exception)) (w : World) : World :=
  {| files := files w; committed := committed w; conn := conn w;
     queue := queue w; clock := clock w; stop_in := stop_in w; script := s;
     trace := trace w; log := log w |}.

Definition add_trace (c : call) (ok : bool) (w : World) : World :=
  {| files := files w; committed := committed w; conn := conn w;
     queue := queue w; clock := clock w; stop_in := stop_in w;
     script := script w; trace := trace w ++ [(c, ok)]; log := log w |}.

Definition add_log (o : output) (w : World) : World :=
  {| files := files w; committed := committed w; conn := conn w;
     queue := queue w; clock := clock w; stop_in := stop_in w;
     script := script w; trace := trace w; log := log w ++ [o] |}.

(** ** The monad of the service *)

Definition M (A : Type) : Type := World -> result A * World.

Definition ret {A} (a : A) : M A := fun w => (Val a, w).

Definition raise {A} (e : exception) : M A := fun w => (Raise e, w).

Definition bind {A B} (m : M A) (k : A -> M B) : M B :=
  fun w =>
    match m w with
    | (Val a, w') => k a w'
    | (Raise e, w') => (Raise e, w')
    end.

Notation "x <- c1 ;; c2" := (bind c1 (fun x => c2))
  (at level 100, c1 at next level, right associativity).
Notation "c1 ;; c2" := (bind c1 (fun _ => c2))
  (at level 100, right associativity).

(** [try: m except Exception as e: h e] *)
Definition try_except {A} (m : M A) (h : exception -> M A) : M A :=
  fun w =>
    match m w with
    | (Val a, w') => (Val a, w')
    | (Raise e, w') => h e w'
    end.

(** [try: m finally: f] *)
Definition try_finally {A} (m : M A) (f : M unit) : M A :=
  fun w =>
    match m w with
    | (r, w') =>
        match f w' with
        | (Val _, w'') => (r, w'')
        | (Raise e, w'') => (Raise e, w'')
        end
    end.

Definition lift {A} (r : result A) : M A := fun w => (r, w).

Definition gets {A} (f : World -> A) : M A := fun w => (Val (f w), w).

Definition modify (f : World -> World) : M unit := fun w => (Val tt, f w).

Definition when (b : bool) (m : M unit) : M unit := if b then m else ret tt.

(** A call to psycopg2 or redis: the script decides whether it raises. *)
Definition ext (c : call) : M unit :=
  fun w =>
    match script w with
    | Some e :: rest => (Raise e, add_trace c false (set_script rest w))
    | None :: rest => (Val tt, add_trace c true (set_script rest w))
    | [] => (Val tt, add_trace c true w)
    end.

(** A call that cannot raise. *)
Definition note (c : call) (ok : bool) : M unit := modify (add_trace c ok).

Definition logger_info (m : message) : M unit := modify (add_log (logger INFO m)).
Definition logger_warning (m : message) : M unit :=
  modify (add_log (logger WARNING m)).
Definition logger_error (m : message) : M unit :=
  modify (add_log (logger ERROR m)).
Definition traceback_print_exc (e : exception) : M unit :=
  modify (add_log (traceback e)).

(** [os.path.exists(path)] *)
Definition exists_ (path : string) : M bool :=
  note (os_path_exists path) true ;;
  gets (fun w => bool_decide (path ∈ files w)).

(** [time.sleep(seconds)] *)
Definition sleep (seconds : Z) : M unit :=
  note (time_sleep seconds) true ;;
  modify (fun w => set_clock (clock w + seconds)%Z w).

(** [datetime.utcnow()] *)
Definition utcnow : M Z := gets clock.

(** A call to the model: the model decides the outcome. *)
Definition infer (c : call) (r : result (list ndarray)) : M (list ndarray) :=
  note c (negb (raised r)) ;; lift r.

(** ** CLAPAnalyzer *)


(** The padding both embedding methods apply:
    [if embedding.shape[0] < 1024: padded = np.zeros(1024, ...);
     padded[:embedding.shape[0]] = embedding; embedding = padded] *)
Definition pad_to_1024 (embedding : ndarray) : M ndarray :=
  if (shape0 embedding <? 1024)%nat then
    lift (setitem_prefix (np_zeros 1024) (shape0 embedding) embedding)
  else ret embedding.

(** [get_audio_embedding]; the lock taken around the model call serialises
    the threads and has no effect on one of them. *)
Definition get_audio_embedding (self : CLAPAnalyzer) (audio_path : string)
  : M (option ndarray) :=
  match model self with
  | None => raise (RuntimeError "Model not loaded. Call load_model() first.")
  | Some m =>
      found <- exists_ audio_path ;;
      if negb found then
        logger_error (Audio_file_not_found audio_path) ;;
        ret None
      else
        try_except
          (embeddings <- infer (audio_inference [audio_path])
                           (get_audio_embedding_from_filelist m [audio_path]) ;;
           embedding <- lift (getitem0 embeddings) ;;
           when (negb (shape0 embedding =? 512)%nat)
             (logger_warning (Unexpected_embedding_dimension (shape0 embedding))) ;;
           embedding <- pad_to_1024 embedding ;;
           ret (Some (astype_float32 embedding)))
          (fun e =>
             logger_error (Failed_to_generate_audio_embedding audio_path e) ;;
             traceback_print_exc e ;;
             ret None)
  end.

(** [get_text_embedding] *)
Definition get_text_embedding (self : CLAPAnalyzer) (text : string)
  : M (option ndarray) :=
  match model self with
  | None => raise (RuntimeError "Model not loaded. Call load_model() first.")
  | Some m =>
      if negb (str_truthy text) || negb (str_truthy (strip text)) then
        logger_error Empty_text_provided ;;
        ret None
      else
        try_except
          (embeddings <- infer (text_inference [text])
                           (module_get_text_embedding m [text]) ;;
           embedding <- lift (getitem0 embeddings) ;;
           embedding <- pad_to_1024 embedding ;;
           ret (Some (astype_float32 embedding)))
          (fun e =>
             logger_error (Failed_to_generate_text_embedding e) ;;
             traceback_print_exc e ;;
             ret None)
  end.

(** ** DatabaseConnection

    [self.url] is [DATABASE_URL] of the configuration; [self.conn] is the
    [conn] of the world. *)

Variable cfg : Config.

(** [self.conn.cursor(...)]; without a connection [self.conn] is [None]. *)
Definition cursor : M unit :=
  c <- gets conn ;;
  match c with
  | None => raise (AttributeError "'NoneType' object has no attribute 'cursor'")
  | Some _ => ext conn_cursor
  end.

(** [cursor.execute(s)]: the statement runs inside the open transaction. *)
Definition execute (s : statement) : M unit :=
  ext (cursor_execute s) ;;
  modify (fun w =>
            set_conn (Some {| transaction := Some (run_statement s (view w)) |}) w).

(** [cursor.close()] of a client-side cursor: local bookkeeping only. *)
Definition cursor_close : M unit := ret tt.

Definition connect : M unit :=
  if negb (str_truthy (DATABASE_URL cfg)) then
    raise (ValueError "DATABASE_URL not set")
  else
    ext (psycopg2_connect (DATABASE_URL cfg)) ;;
    modify (set_conn (Some {| transaction := None |})) ;;
    ext set_client_encoding ;;
    ext register_vector ;;
    logger_info Connected_to_PostgreSQL.

Definition is_connected : M bool :=
  c <- gets conn ;;
  match c with
  | None => ret false
  | Some _ =>
      try_except
        (cursor ;; execute SELECT_1 ;; cursor_close ;; ret true)
        (fun _ => ret false)
  end.

Definition close : M unit :=
  c <- gets conn ;;
  match c with
  | None => ret tt
  | Some _ =>
      try_except (ext conn_close) (fun _ => ret tt) ;;
      modify (set_conn None)
  end.

Definition reconnect : M unit :=
  logger_info Reconnecting_to_database ;;
  close ;;
  connect.

Definition get_cursor : M unit :=
  alive <- is_connected ;;
  when (negb alive) reconnect ;;
  cursor.

Definition commit : M unit :=
  c <- gets conn ;;
  match c with
  | None => ret tt
  | Some _ =>
      ext conn_commit ;;
      modify (fun w =>
                set_conn (Some {| transaction := None |})
                  (set_committed (view w) w))
  end.

(** [rollback]: the open transaction is gone whether the call returns or
    raises (a connection that cannot roll back is lost, and the server drops
    its transaction with it). *)
Definition rollback : M unit :=
  c <- gets conn ;;
  match c with
  | None => ret tt
  | Some _ =>
      modify (set_conn (Some {| transaction := None |})) ;;
      ext conn_rollback
  end.

(** ** json and redis *)

(** [json.loads(raw)] *)
Definition json_loads (raw : payload) : result pyvalue :=
  match raw with
  | Unparsable => Raise (JSONDecodeError "Expecting value")
  | NonObject => Val PyOther
  | Object fields => Val (PyDict fields)
  end.

(** [v.get(key)]; only a dict has the method. *)
Definition get (v : pyvalue) (key : string) : result (option string) :=
  match v with
  | PyOther => Raise (AttributeError "object has no attribute 'get'")
  | PyDict d => Val (d !! key)
  end.

(** [v.get(key, dflt)] *)
Definition get_default (v : pyvalue) (key dflt : string) : result string :=
  match v with
  | PyOther => Raise (AttributeError "object has no attribute 'get'")
  | PyDict d => Val (default dflt (d !! key))
  end.

(** [redis_client.blpop(key, timeout=timeout)] on the analysis queue: the
    first message, or [None] once the timeout has passed on an empty queue. *)
Definition blpop (key : string) (timeout : Z) : M (option payload) :=
  ext (redis_blpop key timeout) ;;
  q <- gets queue ;;
  match q with
  | [] => modify (fun w => set_clock (clock w + timeout)%Z w) ;; ret None
  | raw :: rest => modify (set_queue rest) ;; ret (Some raw)
  end.

(** [redis.from_url(url)]: only the scheme is looked at, no connection is
    made. *)
Definition from_url (url : string) : M unit :=
  if startswith "redis://" url || startswith "rediss://" url
     || startswith "unix://" url
  then ret tt
  else raise (ValueError "Redis URL must specify one of the following schemes (redis://, rediss://, unix://)").

(** ** Worker *)

Record Worker := {
  worker_id : Z;
  analyzer : CLAPAnalyzer;
}.

Definition _update_track_status (id status : string) : M unit :=
  get_cursor ;;
  try_finally
    (try_except
       (execute (UPDATE_status status id) ;;
        commit)
       (fun e =>
          logger_error (Failed_to_update_track_status e) ;;
          rollback))
    cursor_close.

Definition _mark_failed (id error : string) : M unit :=
  get_cursor ;;
  try_finally
    (try_except
       (execute (UPDATE_failed (slice_to 500 error) id) ;;
        commit ;;
        logger_error (Track_failed id error))
       (fun e =>
          logger_error (Failed_to_mark_track_as_failed e) ;;
          rollback))
    cursor_close.

Definition _store_embedding (id : string) (emb : ndarray) : M bool :=
  get_cursor ;;
  try_finally
    (try_except
       (let embedding_list := tolist emb in
        now <- utcnow ;;
        execute (INSERT_embedding id embedding_list MODEL_VERSION now) ;;
        commit ;;
        ret true)
       (fun e =>
          logger_error (Failed_to_store_embedding id e) ;;
          traceback_print_exc e ;;
          rollback ;;
          ret false))
    cursor_close.

Definition _process_job (self : Worker) : M unit :=
  job_data <- blpop ANALYSIS_QUEUE (SLEEP_INTERVAL cfg) ;;
  match job_data with
  | None => ret tt
  | Some raw_job =>
      job <- lift (json_loads raw_job) ;;
      id <- lift (get job "trackId") ;;
      file_path <- lift (get_default job "filePath" "") ;;
      if negb (truthy id) then
        logger_warning (Invalid_job job)
      else
        let id := default "" id in
        logger_info (Worker_processing_track (worker_id self) id) ;;
        _update_track_status id "processing" ;;
        let normalized_path := replace "\" "/" file_path in
        let full_path := os_path_join (MUSIC_PATH cfg) normalized_path in
        emb <- get_audio_embedding (analyzer self) full_path ;;
        match emb with
        | None => _mark_failed id "Failed to generate embedding"
        | Some emb =>
            success <- _store_embedding id emb ;;
            if success : bool then
              _update_track_status id "completed" ;;
              logger_info (Worker_completed_track (worker_id self) id)
            else _mark_failed id "Failed to store embedding"
        end
  end.

(** [self.stop_event.is_set()] *)
Definition is_set : M bool :=
  fun w =>
    match stop_in w with
    | None => (Val false, w)
    | Some 0 => (Val true, w)
    | Some (S n) => (Val false, set_stop_in (Some n) w)
    end.

(** How far a run of the loop got: [Finished] when the loop condition ended
    it, [Running] when the loop is still going after the iterations looked
    at. *)
Inductive run := Finished | Running.

(** [while not self.stop_event.is_set(): try: ... except ...], for at most
    [fuel] iterations. *)
Fixpoint worker_loop (fuel : nat) (self : Worker) : M run :=
  match fuel with
  | 0 => ret Running
  | S fuel' =>
      stop <- is_set ;;
      if stop : bool then ret Finished
      else
        try_except (_process_job self)
          (fun e =>
             if is_psycopg2_Error e then
               logger_error (Worker_database_error (worker_id self) e) ;;
               traceback_print_exc e ;;
               reconnect ;;
               sleep (SLEEP_INTERVAL cfg)
             else
               logger_error (Worker_error (worker_id self) e) ;;
               traceback_print_exc e ;;
               sleep (SLEEP_INTERVAL cfg)) ;;
        worker_loop fuel' self
  end.

(** [start]: the [finally] block runs once the [try] block is left, which a
    loop that is still [Running] has not done. *)
Definition start (fuel : nat) (self : Worker) : M run :=
  logger_info (Worker_starting (worker_id self)) ;;
  fun w =>
    match from_url (REDIS_URL cfg) w with
    | (Raise e, w1) =>
        (logger_info (Worker_stopped (worker_id self)) ;; raise e) w1
    | (Val _, w1) =>
        match (modify (set_conn None) ;; connect ;; worker_loop fuel self) w1 with
        | (Val Running, w2) => (Val Running, w2)
        | (r, w2) =>
            match (close ;; logger_info (Worker_stopped (worker_id self))) w2 with
            | (Val _, w3) => (r, w3)
            | (Raise e, w3) => (Raise e, w3)
            end
        end
    end.

(** ** TextEmbedHandler *)

Record TextEmbedHandler := {
  handler_analyzer : CLAPAnalyzer;
}.

(** [_handle_message]: [message] is what [message['data']] decodes and
    parses to. *)
Definition _handle_message (self : TextEmbedHandler) (message : payload)
  : M unit :=
  try_except
    (request <- lift (json_loads message) ;;
     request_id <- lift (get request "requestId") ;;
     text <- lift (get_default request "text" "") ;;
     if negb (truthy request_id) then
       logger_warning Text_embed_request_missing_requestId
     else
       let request_id := default "" request_id in
       logger_info (Processing_text_embed_request request_id) ;;
       emb <- get_text_embedding (handler_analyzer self) text ;;
       let response : gmap string json :=
         <["requestId" := JString request_id]>
           (<["success" := JBool (is_not_None emb)]>
              (<["embedding" :=
                   match emb with
                   | Some a => JArray (tolist a)
                   | None => JNull
                   end]>
                 (<["modelVersion" := JString MODEL_VERSION]> ∅))) in
       let response_channel := TEXT_EMBED_RESPONSE_PREFIX +:+ request_id in
       ext (redis_publish response_channel response) ;;
       logger_info (Text_embed_response_sent request_id))
    (fun e =>
       logger_error (Failed_to_handle_text_embed_request e) ;;
       traceback_print_exc e).

(** * Properties *)

(** ** Strings and paths *)

Lemma rstrip_whitespace_only s : whitespace_only s = true -> rstrip s = "".
Proof.
  induction s as [|c s IH]; simpl; [done|].
  intros [Hc Hs]%andb_prop. rewrite IH by done. by rewrite Hc.
Qed.

Lemma lstrip_whitespace_only s : whitespace_only s = true -> lstrip s = "".
Proof.
  induction s as [|c s IH]; simpl; [done|].
  intros [Hc Hs]%andb_prop. rewrite Hc. auto.
Qed.

Lemma rstrip_empty s : rstrip s = "" -> whitespace_only s = true.
Proof.
  induction s as [|c s IH]; simpl; [done|].
  destruct (rstrip s); [|done].
  destruct (isspace c); [|done]. auto.
Qed.

Lemma lstrip_not_whitespace s :
  whitespace_only s = false -> whitespace_only (lstrip s) = false.
Proof.
  induction s as [|c s IH]; simpl; [done|].
  destruct (isspace c) eqn:Hc; simpl; [auto|]. by rewrite Hc.
Qed.

(** [not text or not text.strip()] holds exactly for the texts made of white
    space only. *)
Lemma strip_empty s :
  negb (str_truthy s) || negb (str_truthy (strip s)) = whitespace_only s.
Proof.
  destruct (whitespace_only s) eqn:Hs.
  - unfold strip. rewrite lstrip_whitespace_only by done. simpl.
    by destruct s.
  - assert (strip s <> "") as Hne.
    { unfold strip. intros H%rstrip_empty.
      by rewrite lstrip_not_whitespace in H. }
    destruct s; [done|]. destruct (strip _); [done|]. done.
Qed.


Lemma slice_to_short n s : String.length s <= n -> slice_to n s = s.
Proof.
  unfold slice_to. revert s.
  induction n as [|n IH]; intros [|c s]; simpl; try done; try lia.
  intros H. f_equal. apply IH. lia.
Qed.

(** ** Padding *)

(** The vector both embedding methods build from a native row. *)
Definition zero_padded (native : ndarray) : ndarray :=
  {| arr_dtype := float32;
     tolist := as_float32 native ++ replicate (1024 - shape0 native) zero32 |}.

Lemma length_as_float32 a : length (as_float32 a) = shape0 a.
Proof. unfold as_float32, shape0. destruct (arr_dtype a); by rewrite ?length_map. Qed.

Lemma pad_to_1024_run native w :
  exists p, pad_to_1024 native w = (Val p, w)
            /\ astype_float32 p = zero_padded native.
Proof.
  unfold pad_to_1024, zero_padded, astype_float32.
  destruct (Nat.ltb_spec (shape0 native) 1024) as [Hlt|Hge].
  - unfold lift, setitem_prefix.
    assert (shape0 (np_zeros 1024) = 1024) as Hz
      by apply length_replicate.
    rewrite Hz, Nat.min_l by lia. rewrite Nat.eqb_refl.
    eexists. split; [reflexivity|].
    unfold as_float32 at 1. cbn [arr_dtype np_zeros tolist].
    by rewrite drop_replicate.
  - exists native. split; [done|].
    replace (1024 - shape0 native) with 0 by lia.
    by rewrite app_nil_r.
Qed.

Lemma shape0_zero_padded native :
  shape0 (zero_padded native) = Nat.max (shape0 native) 1024.
Proof.
  unfold zero_padded, shape0 at 1. cbn [tolist].
  rewrite length_app, length_as_float32, length_replicate. lia.
Qed.



(** ** What the embedding methods do, case by case *)

(** The log left by an [except Exception as e] block of the analyzer. *)
Definition log_failure (m : message) (e : exception) (w : World) : World :=
  add_log (traceback e) (add_log (logger ERROR m) w).

Definition warn_unless_512 (native : ndarray) (w : World) : World :=
  if (shape0 native =? 512)%nat then w
  else add_log (logger WARNING (Unexpected_embedding_dimension (shape0 native))) w.

Lemma get_audio_embedding_run self m audio_path w :
  model self = Some m ->
  get_audio_embedding self audio_path w =
    let w1 := add_trace (os_path_exists audio_path) true w in
    if bool_decide (audio_path ∈ files w) then
      let r := get_audio_embedding_from_filelist m [audio_path] in
      let w2 := add_trace (audio_inference [audio_path]) (negb (raised r)) w1 in
      match r with
      | Val (native :: _) =>
          (Val (Some (zero_padded native)), warn_unless_512 native w2)
      | Val [] =>
          (Val None,
           log_failure
             (Failed_to_generate_audio_embedding audio_path
                (IndexError "index 0 is out of bounds"))
             (IndexError "index 0 is out of bounds") w2)
      | Raise e =>
          (Val None,
           log_failure (Failed_to_generate_audio_embedding audio_path e) e w2)
      end
    else (Val None, add_log (logger ERROR (Audio_file_not_found audio_path)) w1).
Proof.
  intros Hm. unfold get_audio_embedding. rewrite Hm.
  unfold bind, exists_, note, modify, gets, bind. cbn [files add_trace].
  destruct (bool_decide (audio_path ∈ files w)); [|done].
  cbn [negb]. unfold try_except, infer, note, modify, lift, bind.
  destruct (get_audio_embedding_from_filelist m [audio_path])
    as [[|native rest]|e]; try done.
  cbn [getitem0 raised negb]. unfold when, warn_unless_512.
  destruct (shape0 native =? 512)%nat; cbn [negb].
  - unfold ret at 1.
    destruct (pad_to_1024_run native
                (add_trace (audio_inference [audio_path]) true
                   (add_trace (os_path_exists audio_path) true w)))
      as (p & -> & <-). done.
  - unfold logger_warning, modify.
    match goal with |- context [pad_to_1024 native ?w0] =>
      destruct (pad_to_1024_run native w0) as (p & -> & <-) end.
    done.
Qed.

Lemma get_text_embedding_run self m text w :
  model self = Some m ->
  get_text_embedding self text w =
    if whitespace_only text then
      (Val None, add_log (logger ERROR Empty_text_provided) w)
    else
      let r := module_get_text_embedding m [text] in
      let w2 := add_trace (text_inference [text]) (negb (raised r)) w in
      match r with
      | Val (native :: _) => (Val (Some (zero_padded native)), w2)
      | Val [] =>
          (Val None,
           log_failure
             (Failed_to_generate_text_embedding
                (IndexError "index 0 is out of bounds"))
             (IndexError "index 0 is out of bounds") w2)
      | Raise e =>
          (Val None, log_failure (Failed_to_generate_text_embedding e) e w2)
      end.
Proof.
  intros Hm. unfold get_text_embedding. rewrite Hm, strip_empty.
  destruct (whitespace_only text); [done|].
  unfold try_except, infer, note, modify, lift, bind.
  destruct (module_get_text_embedding m [text]) as [[|native rest]|e];
    try done.
  cbn [getitem0 raised negb].
  match goal with |- context [pad_to_1024 native ?w0] =>
    destruct (pad_to_1024_run native w0) as (p & -> & <-) end.
  done.
Qed.

Lemma get_embedding_not_loaded self :
  model self = None ->
  (forall audio_path w,
     get_audio_embedding self audio_path w
     = (Raise (RuntimeError "Model not loaded. Call load_model() first."), w))
  /\ (forall text w,
        get_text_embedding self text w
        = (Raise (RuntimeError "Model not loaded. Call load_model() first."), w)).
Proof.
  intros Hm. unfold get_audio_embedding, get_text_embedding. by rewrite Hm.
Qed.


(** ** The embedding vector *)





(** ** The text embedding handler *)

(** The publish calls of a trace: channel, message, and whether redis
    accepted the call. *)
Definition publish_calls (tr : list (call * bool))
  : list (string * gmap string json * bool) :=
  omap (fun ev =>
          match ev with
          | (redis_publish channel msg, ok) => Some (channel, msg, ok)
          | _ => None
          end) tr.

Lemma publish_calls_app tr1 tr2 :
  publish_calls (tr1 ++ tr2) = publish_calls tr1 ++ publish_calls tr2.
Proof. apply omap_app. Qed.

(** Whether the next call to psycopg2 or redis goes through. *)
Definition next_call_succeeds (w : World) : bool :=
  match script w with
  | Some _ :: _ => false
  | _ => true
  end.

Lemma get_text_embedding_loaded self m text w :
  model self = Some m ->
  exists emb w',
    get_text_embedding self text w = (Val emb, w')
    /\ script w' = script w
    /\ publish_calls (trace w') = publish_calls (trace w)
    /\ (whitespace_only text = true ->
        emb = None /\ trace w' = trace w
        /\ log w' = log w ++ [logger ERROR Empty_text_provided]).
Proof.
  intros Hm. rewrite (get_text_embedding_run self m) by done.
  destruct (whitespace_only text).
  - eexists _, _. split; [done|]. done.
  - cbn zeta.
    destruct (module_get_text_embedding m [text]) as [[|native rest]|e];
      eexists _, _; (split; [done|]); cbn;
      rewrite publish_calls_app, app_nil_r; done.
Qed.

Lemma handle_message_run self m fields w :
  model (handler_analyzer self) = Some m ->
  truthy (fields !! "requestId") = true ->
  let request_id := default "" (fields !! "requestId") in
  let text := default "" (fields !! "text") in
  exists emb w1 response,
    get_text_embedding (handler_analyzer self) text
      (add_log (logger INFO (Processing_text_embed_request request_id)) w)
    = (Val emb, w1)
    /\ (_handle_message self (Object fields) w).1 = Val tt
    /\ trace (_handle_message self (Object fields) w).2
       = trace w1
         ++ [(redis_publish (TEXT_EMBED_RESPONSE_PREFIX +:+ request_id)
                response, next_call_succeeds w)]
    /\ response !! "requestId" = Some (JString request_id)
    /\ response !! "success" = Some (JBool (is_not_None emb))
    /\ response !! "embedding"
       = Some (match emb with Some a => JArray (tolist a) | None => JNull end)
    /\ response !! "modelVersion" = Some (JString MODEL_VERSION).
Proof.
  intros Hm Hid request_id text.
  destruct (get_text_embedding_loaded (handler_analyzer self) m text
              (add_log (logger INFO (Processing_text_embed_request request_id)) w)
              Hm) as (emb & w1 & Hrun & Hscript & _).
  cbn [script add_log] in Hscript.
  exists emb, w1. eexists. split; [exact Hrun|].
  unfold _handle_message, try_except, bind, lift, logger_info, logger_error,
    traceback_print_exc, modify.
  cbn [json_loads get get_default]. rewrite Hid. cbn [negb].
  fold request_id. fold text. rewrite Hrun.
  unfold ext, next_call_succeeds. rewrite Hscript.
  split.
  { destruct (script w) as [|[e|] rest]; reflexivity. }
  split.
  { destruct (script w) as [|[e|] rest]; reflexivity. }
  repeat split.
Qed.



(** ** Invariants of computations

    [invariant P m]: whatever [m] does, and whether it returns or raises, a
    world in [P] stays in [P]. *)

Definition invariant {A} (P : World -> Prop) (m : M A) : Prop :=
  forall w, P w -> P (m w).2.

Lemma invariant_ret {A} P (a : A) : invariant P (ret a).
Proof. by intros w. Qed.

Lemma invariant_raise {A} P e : invariant P (@raise A e).
Proof. by intros w. Qed.

Lemma invariant_lift {A} P (r : result A) : invariant P (lift r).
Proof. by intros w. Qed.

Lemma invariant_gets {A} P (f : World -> A) : invariant P (gets f).
Proof. by intros w. Qed.

Lemma invariant_modify P (g : World -> World) :
  (forall w, P w -> P (g w)) -> invariant P (modify g).
Proof. intros Hg w. apply Hg. Qed.

Lemma invariant_bind {A B} P (m : M A) (k : A -> M B) :
  invariant P m -> (forall a, invariant P (k a)) -> invariant P (bind m k).
Proof.
  intros Hm Hk w Hw. unfold bind. specialize (Hm w Hw).
  destruct (m w) as [[a|e] w1]; [by apply Hk|done].
Qed.

Lemma invariant_try_except {A} P (m : M A) (h : exception -> M A) :
  invariant P m -> (forall e, invariant P (h e)) -> invariant P (try_except m h).
Proof.
  intros Hm Hh w Hw. unfold try_except. specialize (Hm w Hw).
  destruct (m w) as [[a|e] w1]; [done|by apply Hh].
Qed.

Lemma invariant_try_finally {A} P (m : M A) (f : M unit) :
  invariant P m -> invariant P f -> invariant P (try_finally m f).
Proof.
  intros Hm Hf w Hw. unfold try_finally. specialize (Hm w Hw).
  destruct (m w) as [r w1]. specialize (Hf w1 Hm).
  by destruct (f w1) as [[[]|e] w2].
Qed.

Lemma invariant_when P b (m : M unit) : invariant P m -> invariant P (when b m).
Proof. intros Hm. destruct b; [done|apply invariant_ret]. Qed.

(** The calls that manage the connection, as opposed to the ones that work
    on a job. *)
Definition connection_call (c : call) : bool :=
  match c with
  | psycopg2_connect _ | set_client_encoding | register_vector
  | conn_cursor | conn_close | cursor_execute SELECT_1 => true
  | _ => false
  end.

Section Frame.

Variable P : World -> Prop.
Hypothesis P_script : forall s w, P w -> P (set_script s w).
Hypothesis P_log : forall o w, P w -> P (add_log o w).
Hypothesis P_call :
  forall c ok w, connection_call c = true -> P w -> P (add_trace c ok w).
Hypothesis P_disconnected : forall w, P w -> P (set_conn None w).
Hypothesis P_connected :
  forall w, P w -> P (set_conn (Some {| transaction := None |}) w).
Hypothesis P_select :
  forall w, P w -> P (set_conn (Some {| transaction := Some (view w) |}) w).

Lemma invariant_ext c : connection_call c = true -> invariant P (ext c).
Proof.
  intros Hc w Hw. unfold ext.
  destruct (script w) as [|[e|] rest]; cbn; auto.
Qed.

Lemma invariant_cursor : invariant P cursor.
Proof.
  intros w Hw. unfold cursor, bind, gets.
  destruct (conn w); [by apply invariant_ext|done].
Qed.

Lemma invariant_is_connected : invariant P is_connected.
Proof.
  intros w Hw. unfold is_connected, bind, gets.
  destruct (conn w); [|done].
  apply invariant_try_except; [|intros; apply invariant_ret|done].
  apply invariant_bind; [apply invariant_cursor|intros _].
  apply invariant_bind; [|intros; apply invariant_ret].
  apply invariant_bind; [by apply invariant_ext|intros _].
  apply invariant_modify. intros w0. apply P_select.
Qed.

Lemma invariant_close : invariant P close.
Proof.
  intros w Hw. unfold close, bind, gets.
  destruct (conn w); [|done].
  revert w Hw. apply invariant_bind; [|intros; by apply invariant_modify].
  apply invariant_try_except; [by apply invariant_ext|].
  intros; apply invariant_ret.
Qed.

Lemma invariant_connect : invariant P connect.
Proof.
  unfold connect. destruct (negb _); [apply invariant_raise|].
  apply invariant_bind; [by apply invariant_ext|intros _].
  apply invariant_bind; [by apply invariant_modify|intros _].
  apply invariant_bind; [by apply invariant_ext|intros _].
  apply invariant_bind; [by apply invariant_ext|intros _].
  apply invariant_modify. intros w. apply P_log.
Qed.

Lemma invariant_reconnect : invariant P reconnect.
Proof.
  apply invariant_bind; [apply invariant_modify; intros; by apply P_log|].
  intros _. apply invariant_bind; [apply invariant_close|intros _].
  apply invariant_connect.
Qed.

Lemma invariant_get_cursor : invariant P get_cursor.
Proof.
  apply invariant_bind; [apply invariant_is_connected|intros alive].
  apply invariant_bind; [|intros _; apply invariant_cursor].
  apply invariant_when, invariant_reconnect.
Qed.

End Frame.

(** No transaction is open, or the open one has changed nothing. *)
Definition idle (w : World) : Prop := view w = committed w.

Lemma get_cursor_idle w : idle w -> idle (get_cursor w).2.
Proof.
  apply invariant_get_cursor; unfold idle; done.
Qed.

Lemma get_cursor_committed w : committed (get_cursor w).2 = committed w.
Proof.
  by apply (invariant_get_cursor (fun w' => committed w' = committed w)).
Qed.

Lemma get_cursor_clock w : clock (get_cursor w).2 = clock w.
Proof. by apply (invariant_get_cursor (fun w' => clock w' = clock w)). Qed.

Lemma get_cursor_connected w w1 :
  get_cursor w = (Val tt, w1) -> exists c, conn w1 = Some c.
Proof.
  unfold get_cursor, bind.
  destruct (is_connected w) as [[alive|e] w2]; [|done].
  destruct (when (negb alive) reconnect w2) as [[[]|e] w3]; [|done].
  unfold cursor, bind, gets. destruct (conn w3) as [c|] eqn:Hc; [|done].
  unfold ext. destruct (script w3) as [|[e|] rest]; intros [= <-]; eauto.
Qed.

(** ** One write to the store

    Once a write holds its cursor, the script decides the rest: the
    statement, then the commit, and the rollback as soon as one of the two
    raises. *)

Definition attempt_calls (stmt : statement) (s : list (option exception))
  : list (call * bool) :=
  match s with
  | Some _ :: Some _ :: _ =>
      [(cursor_execute stmt, false); (conn_rollback, false)]
  | Some _ :: _ =>
      [(cursor_execute stmt, false); (conn_rollback, true)]
  | None :: Some _ :: Some _ :: _ =>
      [(cursor_execute stmt, true); (conn_commit, false); (conn_rollback, false)]
  | None :: Some _ :: _ =>
      [(cursor_execute stmt, true); (conn_commit, false); (conn_rollback, true)]
  | _ =>
      [(cursor_execute stmt, true); (conn_commit, true)]
  end.

(** [Val true]: committed; [Val false]: rolled back; [Raise e]: the rollback
    itself raised [e]. *)
Definition attempt_result (s : list (option exception)) : result bool :=
  match s with
  | Some _ :: Some e :: _ => Raise e
  | Some _ :: _ => Val false
  | None :: Some _ :: Some e :: _ => Raise e
  | None :: Some _ :: _ => Val false
  | _ => Val true
  end.

Definition attempt_commits (s : list (option exception)) : bool :=
  match attempt_result s with Val true => true | _ => false end.

(** What is true of the world after a write that held its cursor in [w1]. *)
Definition written (stmt : statement) (w1 w' : World) : Prop :=
  trace w' = trace w1 ++ attempt_calls stmt (script w1)
  /\ committed w'
     = (if attempt_commits (script w1) then run_statement stmt (view w1)
        else committed w1)
  /\ idle w'
  /\ files w' = files w1 /\ queue w' = queue w1 /\ clock w' = clock w1
  /\ stop_in w' = stop_in w1
  /\ conn w' = Some {| transaction := None |}
  /\ (script w1 = [] -> script w' = []).

Ltac after_cursor Hcursor Hconn w1 :=
  unfold bind; rewrite Hcursor;
  unfold try_finally, try_except, cursor_close, bind, utcnow, gets, execute,
    commit, rollback, ext, modify, logger_error, traceback_print_exc, ret,
    written, idle, view, attempt_commits;
  destruct w1 as [fi co cn qu cl st sc tr lg]; cbn in Hconn; subst cn;
  cbn [conn set_conn add_log add_trace set_script set_committed script trace
       committed files queue clock stop_in log fst snd];
  destruct sc as [|[e1|] [|[e2|] [|[e3|] sc]]];
  cbn; rewrite <- ?app_assoc; done.

Lemma store_embedding_written id emb w w1 c :
  get_cursor w = (Val tt, w1) -> conn w1 = Some c ->
  (_store_embedding id emb w).1 = attempt_result (script w1)
  /\ written (INSERT_embedding id (tolist emb) MODEL_VERSION (clock w1))
       w1 (_store_embedding id emb w).2.
Proof.
  intros Hcursor Hconn. unfold _store_embedding.
  after_cursor Hcursor Hconn w1.
Qed.

Lemma update_track_status_written id status w w1 c :
  get_cursor w = (Val tt, w1) -> conn w1 = Some c ->
  (_update_track_status id status w).1
  = match attempt_result (script w1) with
    | Val _ => Val tt
    | Raise e => Raise e
    end
  /\ written (UPDATE_status status id) w1 (_update_track_status id status w).2.
Proof.
  intros Hcursor Hconn. unfold _update_track_status.
  after_cursor Hcursor Hconn w1.
Qed.

Lemma mark_failed_written id error w w1 c :
  get_cursor w = (Val tt, w1) -> conn w1 = Some c ->
  (_mark_failed id error w).1
  = match attempt_result (script w1) with
    | Val _ => Val tt
    | Raise e => Raise e
    end
  /\ written (UPDATE_failed (slice_to 500 error) id) w1
       (_mark_failed id error w).2.
Proof.
  intros Hcursor Hconn. unfold _mark_failed.
  after_cursor Hcursor Hconn w1.
Qed.

Lemma write_without_cursor id status error emb w w1 e :
  get_cursor w = (Raise e, w1) ->
  _update_track_status id status w = (Raise e, w1)
  /\ _mark_failed id error w = (Raise e, w1)
  /\ _store_embedding id emb w = (Raise e, w1).
Proof.
  intros H. unfold _update_track_status, _mark_failed, _store_embedding, bind.
  by rewrite H.
Qed.

(** ** The statements on the tables *)



(** The row [UPDATE ... 'failed'] leaves in place of [r]. *)
Definition failed_row (error : string) (r : TrackRow) : TrackRow :=
  {| Track_id := Track_id r;
     analysisStatus := Some "failed";
     analysisError := Some error;
     analysisRetryCount := Some (COALESCE (analysisRetryCount r) 0 + 1)%Z |}.

Lemma update_failed_lookup error id rows i r :
  rows !! i = Some r ->
  update_failed error id rows !! i
  = Some (if String.eqb (Track_id r) id then failed_row error r else r).
Proof.
  revert i. induction rows as [|r0 rows IH]; intros [|i]; simpl; try done.
  - by intros [= ->].
  - apply IH.
Qed.



(** *** The upsert *)

(** The row the upsert leaves for the key of [new]. *)
Definition upserted (new r : EmbeddingRow) : EmbeddingRow :=
  if String.eqb (track_id r) (track_id new) then
    {| track_id := track_id r;
       embedding := embedding new;
       model_version := model_version new;
       analyzed_at := analyzed_at new |}
  else r.



Lemma track_id_upserted new r : track_id (upserted new r) = track_id r.
Proof. unfold upserted. by destruct (String.eqb _ _). Qed.

Lemma existsb_track_id k (rows : list EmbeddingRow) :
  existsb (fun r => String.eqb (track_id r) k) rows = true
  <-> k ∈ map track_id rows.
Proof.
  induction rows as [|r rows IH]; simpl.
  - split; [done|]. by intros ?%elem_of_nil.
  - rewrite orb_true_iff, IH, elem_of_cons, String.eqb_eq.
    split; (intros [H|H]; [left|right]); done.
Qed.

Lemma insert_embedding_present new rows :
  track_id new ∈ map track_id rows ->
  insert_embedding new rows = map (upserted new) rows.
Proof.
  intros H. unfold insert_embedding.
  by rewrite (proj2 (existsb_track_id _ _) H).
Qed.

Lemma insert_embedding_absent new rows :
  track_id new ∉ map track_id rows ->
  insert_embedding new rows = rows ++ [new].
Proof.
  intros H. unfold insert_embedding.
  destruct (existsb _ rows) eqn:He; [|done].
  by apply existsb_track_id in He.
Qed.



Lemma map_track_id_upserted new rows :
  map track_id (map (upserted new) rows) = map track_id rows.
Proof.
  induction rows as [|r rows IH]; simpl; [done|].
  by rewrite track_id_upserted, IH.
Qed.



Lemma insert_embedding_NoDup new rows :
  NoDup (map track_id rows) -> NoDup (map track_id (insert_embedding new rows)).
Proof.
  intros Hnodup.
  destruct (decide (track_id new ∈ map track_id rows)) as [Hin|Hout].
  - rewrite insert_embedding_present by done.
    by rewrite map_track_id_upserted.
  - rewrite insert_embedding_absent by done. rewrite map_app. simpl.
    apply NoDup_app. split; [done|]. split; [|apply NoDup_singleton].
    intros k Hk ->%list_elem_of_singleton. done.
Qed.

Lemma get_cursor_view w w1 :
  idle w -> get_cursor w = (Val tt, w1) ->
  view w1 = committed w /\ committed w1 = committed w /\ clock w1 = clock w.
Proof.
  intros Hidle Hcursor.
  pose proof (get_cursor_idle w Hidle) as H1.
  pose proof (get_cursor_committed w) as H2.
  pose proof (get_cursor_clock w) as H3.
  rewrite Hcursor in H1, H2, H3. cbn in H1, H2, H3. unfold idle in H1.
  split; [congruence|done].
Qed.


(** ** One job *)

Lemma blpop_Some key timeout w raw w0 :
  blpop key timeout w = (Val (Some raw), w0) ->
  queue w = raw :: queue w0
  /\ trace w0 = trace w ++ [(redis_blpop key timeout, true)]
  /\ committed w0 = committed w /\ conn w0 = conn w /\ files w0 = files w
  /\ log w0 = log w /\ clock w0 = clock w.
Proof.
  unfold blpop, bind, ext, gets, modify.
  destruct (script w) as [|[e|] rest]; cbn; [| done |];
    destruct (queue w) as [|raw' q] eqn:Hq; cbn; intros [= <- <-]; done.
Qed.

(** C9.  A job taken from the queue whose [trackId] is missing or empty is
    logged as invalid and dropped: [_process_job] returns, and the world it
    leaves is the one the dequeue left plus that one warning.  No statement
    was sent to the store, [os.path.exists] and the model were not called,
    and the committed tables and the connection are as before. *)
Theorem invalid_job_discarded self fields w w0 :
  blpop ANALYSIS_QUEUE (SLEEP_INTERVAL cfg) w = (Val (Some (Object fields)), w0) ->
  truthy (fields !! "trackId") = false ->
  let w' := (_process_job self w).2 in
  _process_job self w
  = (Val tt, add_log (logger WARNING (Invalid_job (PyDict fields))) w0)
  /\ trace w' = trace w ++ [(redis_blpop ANALYSIS_QUEUE (SLEEP_INTERVAL cfg), true)]
  /\ committed w' = committed w
  /\ conn w' = conn w
  /\ log w' = log w ++ [logger WARNING (Invalid_job (PyDict fields))].
Proof.
  intros Hpop Hid w'.
  assert (_process_job self w
          = (Val tt, add_log (logger WARNING (Invalid_job (PyDict fields))) w0))
    as Hrun.
  { unfold _process_job, bind. rewrite Hpop. unfold lift.
    cbn [json_loads get get_default]. by rewrite Hid. }
  split; [done|]. unfold w'. rewrite Hrun.
  destruct (blpop_Some _ _ _ _ _ Hpop) as (_ & Htrace & Hcomm & Hconn & _ & Hlog & _).
  cbn. by rewrite Htrace, Hcomm, Hconn, Hlog.
Qed.

(** The UPDATE statements on "Track" that a trace sent, in order. *)
Definition track_updates (tr : list (call * bool)) : list statement :=
  omap (fun ev =>
          match ev.1 with
          | cursor_execute (UPDATE_status status id) =>
              Some (UPDATE_status status id)
          | cursor_execute (UPDATE_failed error id) =>
              Some (UPDATE_failed error id)
          | _ => None
          end) tr.

(** The paths [os.path.exists] was asked about, in order. *)
Definition embed_calls (tr : list (call * bool)) : list string :=
  omap (fun ev =>
          match ev.1 with
          | os_path_exists path => Some path
          | _ => None
          end) tr.

Lemma track_updates_app tr1 tr2 :
  track_updates (tr1 ++ tr2) = track_updates tr1 ++ track_updates tr2.
Proof. apply omap_app. Qed.

Lemma embed_calls_app tr1 tr2 :
  embed_calls (tr1 ++ tr2) = embed_calls tr1 ++ embed_calls tr2.
Proof. apply omap_app. Qed.

Lemma get_cursor_track_updates w :
  track_updates (trace (get_cursor w).2) = track_updates (trace w).
Proof.
  apply (invariant_get_cursor
           (fun w' => track_updates (trace w') = track_updates (trace w)));
    try done.
  intros c ok w0 Hc H. cbn. rewrite track_updates_app, H.
  destruct c as [| | | | | | |[]| | | | | |]; try done; apply app_nil_r.
Qed.

Lemma get_cursor_embed_calls w :
  embed_calls (trace (get_cursor w).2) = embed_calls (trace w).
Proof.
  apply (invariant_get_cursor
           (fun w' => embed_calls (trace w') = embed_calls (trace w)));
    try done.
  intros c ok w0 Hc H. cbn. rewrite embed_calls_app, H.
  destruct c; try done; apply app_nil_r.
Qed.

Lemma track_updates_attempt stmt s :
  track_updates (attempt_calls stmt s)
  = match stmt with
    | UPDATE_status _ _ | UPDATE_failed _ _ => [stmt]
    | _ => []
    end.
Proof.
  destruct s as [|[e1|] [|[e2|] [|[e3|] s]]]; by destruct stmt.
Qed.

Lemma embed_calls_attempt stmt s : embed_calls (attempt_calls stmt s) = [].
Proof. by destruct s as [|[e1|] [|[e2|] [|[e3|] s]]]. Qed.

Lemma update_track_status_trace id status w :
  embed_calls (trace (_update_track_status id status w).2)
  = embed_calls (trace w)
  /\ ((exists e, (_update_track_status id status w).1 = Raise e
                 /\ track_updates (trace (_update_track_status id status w).2)
                    = track_updates (trace w))
      \/ track_updates (trace (_update_track_status id status w).2)
         = track_updates (trace w) ++ [UPDATE_status status id]).
Proof.
  pose proof (get_cursor_track_updates w) as Ht.
  pose proof (get_cursor_embed_calls w) as He.
  destruct (get_cursor w) as [[[]|e] w1] eqn:Hcursor; cbn in Ht, He.
  - destruct (get_cursor_connected w w1 Hcursor) as [c Hc].
    destruct (update_track_status_written id status w w1 c Hcursor Hc)
      as (_ & -> & _).
    rewrite embed_calls_app, track_updates_app, embed_calls_attempt,
      track_updates_attempt, app_nil_r, Ht, He. auto.
  - destruct (write_without_cursor id status "" (np_zeros 0) w w1 e Hcursor)
      as (-> & _). cbn. eauto.
Qed.

Lemma mark_failed_trace id error w :
  embed_calls (trace (_mark_failed id error w).2) = embed_calls (trace w)
  /\ ((exists e, (_mark_failed id error w).1 = Raise e
                 /\ track_updates (trace (_mark_failed id error w).2)
                    = track_updates (trace w))
      \/ track_updates (trace (_mark_failed id error w).2)
         = track_updates (trace w) ++ [UPDATE_failed (slice_to 500 error) id]).
Proof.
  pose proof (get_cursor_track_updates w) as Ht.
  pose proof (get_cursor_embed_calls w) as He.
  destruct (get_cursor w) as [[[]|e] w1] eqn:Hcursor; cbn in Ht, He.
  - destruct (get_cursor_connected w w1 Hcursor) as [c Hc].
    destruct (mark_failed_written id error w w1 c Hcursor Hc) as (_ & -> & _).
    rewrite embed_calls_app, track_updates_app, embed_calls_attempt,
      track_updates_attempt, app_nil_r, Ht, He. auto.
  - destruct (write_without_cursor id "" error (np_zeros 0) w w1 e Hcursor)
      as (_ & -> & _). cbn. eauto.
Qed.

Lemma store_embedding_trace id emb w :
  embed_calls (trace (_store_embedding id emb w).2) = embed_calls (trace w)
  /\ track_updates (trace (_store_embedding id emb w).2)
     = track_updates (trace w).
Proof.
  pose proof (get_cursor_track_updates w) as Ht.
  pose proof (get_cursor_embed_calls w) as He.
  destruct (get_cursor w) as [[[]|e] w1] eqn:Hcursor; cbn in Ht, He.
  - destruct (get_cursor_connected w w1 Hcursor) as [c Hc].
    destruct (store_embedding_written id emb w w1 c Hcursor Hc) as (_ & -> & _).
    rewrite embed_calls_app, track_updates_app, embed_calls_attempt,
      track_updates_attempt, !app_nil_r, Ht, He. auto.
  - destruct (write_without_cursor id "" "" emb w w1 e Hcursor)
      as (_ & _ & ->). cbn. eauto.
Qed.

Lemma get_audio_embedding_trace self audio_path w :
  track_updates (trace (get_audio_embedding self audio_path w).2)
  = track_updates (trace w)
  /\ ((exists e, get_audio_embedding self audio_path w = (Raise e, w)
                 /\ model self = None)
      \/ (exists emb, (get_audio_embedding self audio_path w).1 = Val emb)
         /\ embed_calls (trace (get_audio_embedding self audio_path w).2)
            = embed_calls (trace w) ++ [audio_path]).
Proof.
  destruct (model self) as [m|] eqn:Hm.
  - rewrite (get_audio_embedding_run self m) by done. cbn zeta.
    destruct (bool_decide _).
    + destruct (get_audio_embedding_from_filelist m [audio_path])
        as [[|native rest]|e]; unfold warn_unless_512;
        try destruct (shape0 native =? 512)%nat; cbn;
        rewrite !track_updates_app, !embed_calls_app, !app_nil_r; eauto.
    + cbn. rewrite !track_updates_app, !embed_calls_app, !app_nil_r. eauto.
  - rewrite (proj1 (get_embedding_not_loaded self Hm)). split; [done|].
    left. eauto.
Qed.

(** The job once it is taken from the queue and found valid, step by
    step. *)
Lemma process_job_steps self fields w w0 :
  blpop ANALYSIS_QUEUE (SLEEP_INTERVAL cfg) w = (Val (Some (Object fields)), w0) ->
  truthy (fields !! "trackId") = true ->
  let id := default "" (fields !! "trackId") in
  let full_path :=
    os_path_join (MUSIC_PATH cfg)
      (replace "\" "/" (default "" (fields !! "filePath"))) in
  _process_job self w
  = match _update_track_status id "processing"
            (add_log (logger INFO (Worker_processing_track (worker_id self) id))
               w0) with
    | (Raise e, w1) => (Raise e, w1)
    | (Val _, w1) =>
        match get_audio_embedding (analyzer self) full_path w1 with
        | (Raise e, w2) => (Raise e, w2)
        | (Val None, w2) => _mark_failed id "Failed to generate embedding" w2
        | (Val (Some v), w2) =>
            match _store_embedding id v w2 with
            | (Raise e, w3) => (Raise e, w3)
            | (Val true, w3) =>
                (_update_track_status id "completed" ;;
                 logger_info (Worker_completed_track (worker_id self) id)) w3
            | (Val false, w3) =>
                _mark_failed id "Failed to store embedding" w3
            end
        end
    end.
Proof.
  intros Hpop Hid id full_path.
  unfold _process_job. unfold bind at 1. rewrite Hpop.
  unfold lift, bind at 1 2 3. cbn [json_loads get get_default].
  rewrite Hid. cbn [negb]. fold id. fold full_path.
  unfold bind at 1. unfold logger_info at 1. unfold modify.
  unfold bind at 1.
  destruct (_update_track_status id "processing" _) as [[[]|e] w1]; [|done].
  unfold bind at 1.
  destruct (get_audio_embedding (analyzer self) full_path w1)
    as [[[v|]|e] w2]; [|done|done].
  unfold bind at 1.
  by destruct (_store_embedding id v w2) as [[[]|e] w3].
Qed.

Lemma completed_trace self id w :
  let m := (_update_track_status id "completed" ;;
            logger_info (Worker_completed_track (worker_id self) id)) in
  embed_calls (trace (m w).2) = embed_calls (trace w)
  /\ ((exists e, (m w).1 = Raise e
                 /\ track_updates (trace (m w).2) = track_updates (trace w))
      \/ track_updates (trace (m w).2)
         = track_updates (trace w) ++ [UPDATE_status "completed" id]).
Proof.
  cbn zeta. unfold bind.
  destruct (update_track_status_trace id "completed" w) as (He & Ht).
  destruct (_update_track_status id "completed" w) as [[[]|e] w1]; [|done].
  done.
Qed.


(** *** A store that answers every call *)

(** Nothing is scripted to fail and the worker holds a connection. *)
Definition untroubled (w : World) : Prop :=
  script w = [] /\ exists c, conn w = Some c.

Lemma get_cursor_untroubled w :
  untroubled w ->
  exists w1, get_cursor w = (Val tt, w1) /\ untroubled w1.
Proof.
  intros [Hs [c Hc]]. destruct w as [fi co cn qu cl st sc tr lg].
  cbn in Hs, Hc. subst sc cn. eexists. split; [reflexivity|].
  split; [done|]. cbn. eauto.
Qed.

Lemma write_untroubled id status error emb w :
  untroubled w ->
  (_update_track_status id status w).1 = Val tt
  /\ untroubled (_update_track_status id status w).2
  /\ (_mark_failed id error w).1 = Val tt
  /\ untroubled (_mark_failed id error w).2
  /\ (_store_embedding id emb w).1 = Val true
  /\ untroubled (_store_embedding id emb w).2.
Proof.
  intros Hw. destruct (get_cursor_untroubled w Hw) as (w1 & Hcursor & Hs1 & c & Hc).
  destruct (update_track_status_written id status w w1 c Hcursor Hc)
    as (Hr1 & _ & _ & _ & _ & _ & _ & _ & Hc1 & Hs1').
  destruct (mark_failed_written id error w w1 c Hcursor Hc)
    as (Hr2 & _ & _ & _ & _ & _ & _ & _ & Hc2 & Hs2').
  destruct (store_embedding_written id emb w w1 c Hcursor Hc)
    as (Hr3 & _ & _ & _ & _ & _ & _ & _ & Hc3 & Hs3').
  rewrite Hs1 in Hr1, Hr2, Hr3. cbn in Hr1, Hr2, Hr3. unfold untroubled.
  rewrite Hr1, Hr2, Hr3, Hc1, Hc2, Hc3.
  repeat split; eauto.
Qed.

Lemma get_audio_embedding_untroubled self m audio_path w :
  model self = Some m ->
  untroubled w ->
  exists emb,
    (get_audio_embedding self audio_path w).1 = Val emb
    /\ untroubled (get_audio_embedding self audio_path w).2.
Proof.
  intros Hm Hw. rewrite (get_audio_embedding_run self m) by done. cbn zeta.
  destruct (bool_decide _); [|by eexists].
  destruct (get_audio_embedding_from_filelist m [audio_path])
    as [[|native rest]|e]; eexists; (split; [done|]); try done.
  unfold warn_unless_512. by destruct (shape0 native =? 512)%nat.
Qed.

(** With the model loaded and a store that answers every call, a valid job
    is processed to the end. *)
Lemma process_job_returns self m fields w w0 :
  blpop ANALYSIS_QUEUE (SLEEP_INTERVAL cfg) w = (Val (Some (Object fields)), w0) ->
  truthy (fields !! "trackId") = true ->
  model (analyzer self) = Some m ->
  untroubled w0 ->
  (_process_job self w).1 = Val tt.
Proof.
  intros Hpop Hid Hm Hw0.
  rewrite (process_job_steps self fields w w0 Hpop Hid).
  set (id := default "" (fields !! "trackId")).
  set (full_path := os_path_join _ _).
  set (w00 := add_log _ w0).
  assert (untroubled w00) as Hw00 by exact Hw0.
  destruct (write_untroubled id "processing" "" (np_zeros 0) w00 Hw00)
    as (Hr1 & Hw1 & _).
  destruct (_update_track_status id "processing" w00) as [[[]|e1] w1];
    [|done]. cbn [snd] in Hw1.
  destruct (get_audio_embedding_untroubled (analyzer self) m full_path w1 Hm Hw1)
    as (emb & Hr2 & Hw2).
  destruct (get_audio_embedding (analyzer self) full_path w1)
    as [[[v|]|e2] w2]; [| |done]; cbn [snd] in Hw2.
  - destruct (write_untroubled id "" "" v w2 Hw2) as (_ & _ & _ & _ & Hr3 & Hw3).
    destruct (_store_embedding id v w2) as [[[]|e3] w3]; try done.
    cbn [snd] in Hw3. unfold bind.
    destruct (write_untroubled id "completed" "" v w3 Hw3) as (Hr4 & _).
    by destruct (_update_track_status id "completed" w3) as [[[]|e4] w4].
  - by destruct (write_untroubled id "" "Failed to generate embedding"
                   (np_zeros 0) w2 Hw2) as (_ & _ & Hr3 & _).
Qed.

Lemma process_job_embed_calls self fields w w0 :
  blpop ANALYSIS_QUEUE (SLEEP_INTERVAL cfg) w = (Val (Some (Object fields)), w0) ->
  truthy (fields !! "trackId") = true ->
  let full_path :=
    os_path_join (MUSIC_PATH cfg)
      (replace "\" "/" (default "" (fields !! "filePath"))) in
  let w' := (_process_job self w).2 in
  (embed_calls (trace w') = embed_calls (trace w)
   \/ embed_calls (trace w') = embed_calls (trace w) ++ [full_path])
  /\ ((_process_job self w).1 = Val tt ->
      embed_calls (trace w') = embed_calls (trace w) ++ [full_path]).
Proof.
  intros Hpop Hid full_path w'.
  unfold w'. rewrite (process_job_steps self fields w w0 Hpop Hid).
  fold full_path. set (id := default "" (fields !! "trackId")).
  destruct (blpop_Some _ _ _ _ _ Hpop) as (_ & Htrace0 & _).
  set (w00 := add_log _ w0).
  assert (embed_calls (trace w00) = embed_calls (trace w)) as He0.
  { unfold w00. cbn [trace add_log].
    by rewrite Htrace0, embed_calls_app, !app_nil_r. }
  destruct (update_track_status_trace id "processing" w00) as (He1 & _).
  destruct (_update_track_status id "processing" w00) as [[[]|e1] w1];
    cbn [fst snd] in He1 |- *; rewrite He0 in He1; [|split; [auto|done]].
  destruct (get_audio_embedding_trace (analyzer self) full_path w1)
    as (_ & He2).
  destruct (get_audio_embedding (analyzer self) full_path w1)
    as [[[v|]|e2] w2] eqn:Hemb; cbn [fst snd] in He2.
  - destruct He2 as [(e & [=] & _)|[_ He2]]. rewrite He1 in He2.
    destruct (store_embedding_trace id v w2) as (He3 & _).
    destruct (_store_embedding id v w2) as [[[]|e3] w3];
      cbn [fst snd] in He3 |- *.
    + destruct (completed_trace self id w3) as (He4 & _). cbn zeta in He4.
      rewrite He4, He3, He2. auto.
    + destruct (mark_failed_trace id "Failed to store embedding" w3)
        as (He4 & _). rewrite He4, He3, He2. auto.
    + rewrite He3, He2. split; [auto|done].
  - destruct He2 as [(e & [=] & _)|[_ He2]]. rewrite He1 in He2.
    destruct (mark_failed_trace id "Failed to generate embedding" w2)
      as (He4 & _). rewrite He4, He2. auto.
  - destruct He2 as [(e & [= -> ->] & _)|[[emb [=]] _]]. cbn [fst snd].
    rewrite He1. split; [auto|done].
Qed.


Lemma append_empty_r s : s +:+ "" = s.
Proof.
  induction s as [|c s IH]; [done|].
  change (String c (s +:+ "") = String c s). by rewrite IH.
Qed.

(** C10.  For a valid job taken from the queue, the only path
    [get_audio_embedding] is called with is
    [os.path.join(MUSIC_PATH, normalized_path)], and it is called with it
    whenever the job is not cut short.  When the normalized path begins with
    "/" this is the normalized path itself, the media root being dropped;
    otherwise it is the media root, a "/" unless the root is empty or ends
    with one, and the normalized path.  A job without [filePath] resolves to
    the media root (followed by that separator), and is processed like any
    other:
    with the model loaded and a store that answers every call the job runs
    to the end and the media root is the path handed to
    [get_audio_embedding]. *)
Theorem path_resolution self fields w w0 :
  blpop ANALYSIS_QUEUE (SLEEP_INTERVAL cfg) w = (Val (Some (Object fields)), w0) ->
  truthy (fields !! "trackId") = true ->
  let normalized_path := replace "\" "/" (default "" (fields !! "filePath")) in
  let full_path := os_path_join (MUSIC_PATH cfg) normalized_path in
  let w' := (_process_job self w).2 in
  (embed_calls (trace w') = embed_calls (trace w)
   \/ embed_calls (trace w') = embed_calls (trace w) ++ [full_path])
  /\ ((_process_job self w).1 = Val tt ->
      embed_calls (trace w') = embed_calls (trace w) ++ [full_path])
  /\ (startswith "/" normalized_path = true -> full_path = normalized_path)
  /\ (startswith "/" normalized_path = false ->
      full_path
      = if negb (str_truthy (MUSIC_PATH cfg)) || endswith_char "/" (MUSIC_PATH cfg)
        then MUSIC_PATH cfg +:+ normalized_path
        else MUSIC_PATH cfg +:+ "/" +:+ normalized_path)
  /\ (fields !! "filePath" = None ->
      full_path
      = (if negb (str_truthy (MUSIC_PATH cfg)) || endswith_char "/" (MUSIC_PATH cfg)
         then MUSIC_PATH cfg
         else MUSIC_PATH cfg +:+ "/")
      /\ forall m,
           model (analyzer self) = Some m -> untroubled w0 ->
           (_process_job self w).1 = Val tt
           /\ embed_calls (trace w') = embed_calls (trace w) ++ [full_path]).
Proof.
  intros Hpop Hid normalized_path full_path w'.
  destruct (process_job_embed_calls self fields w w0 Hpop Hid) as [Hany Hret].
  fold normalized_path full_path w' in Hany, Hret.
  split; [exact Hany|]. split; [exact Hret|].
  split. { intros H. unfold full_path, os_path_join. by rewrite H. }
  split. { intros H. unfold full_path, os_path_join. by rewrite H. }
  intros Hnone. split.
  - unfold full_path, normalized_path, os_path_join. rewrite Hnone. cbn.
    destruct (negb (str_truthy (MUSIC_PATH cfg)) || endswith_char "/" (MUSIC_PATH cfg));
      [apply append_empty_r|done].
  - intros m Hm Hw0.
    pose proof (process_job_returns self m fields w w0 Hpop Hid Hm Hw0) as Hr.
    split; [exact Hr|]. by apply Hret.
Qed.

(** ** The worker loop *)

(** An exception leaves the loop only from [reconnect] in the
    [except psycopg2.Error] block: the job raised a psycopg2 error [e0], and
    the reconnect that follows raised [e]. *)
Lemma worker_loop_raises fuel self w e w' :
  worker_loop fuel self w = (Raise e, w') ->
  exists e0 w1,
    is_psycopg2_Error e0 = true
    /\ reconnect
         (add_log (traceback e0)
            (add_log (logger ERROR (Worker_database_error (worker_id self) e0))
               w1))
       = (Raise e, w').
Proof.
  revert w. induction fuel as [|fuel IH]; intros w; [done|].
  cbn [worker_loop]. unfold bind at 1.
  destruct (is_set w) as [[[]|e1] w1] eqn:Hset; [done| |].
  - unfold bind, try_except, logger_error, traceback_print_exc, modify, sleep,
      note.
    destruct (_process_job self w1) as [[[]|e0] w2]; [apply IH|].
    destruct (is_psycopg2_Error e0) eqn:Hpg; [|apply IH].
    destruct (reconnect _) as [[[]|e2] w3] eqn:Hre; [apply IH|].
    intros [= <- <-]. eauto.
  - unfold is_set in Hset. by destruct (stop_in w) as [[|n]|].
Qed.

(** * Further properties *)

(** One turn of the worker loop: the body of the [while], that is the job
    and the two [except] blocks. *)
Definition iteration (self : Worker) : M unit :=
  try_except (_process_job self)
    (fun e =>
       if is_psycopg2_Error e then
         logger_error (Worker_database_error (worker_id self) e) ;;
         traceback_print_exc e ;;
         reconnect ;;
         sleep (SLEEP_INTERVAL cfg)
       else
         logger_error (Worker_error (worker_id self) e) ;;
         traceback_print_exc e ;;
         sleep (SLEEP_INTERVAL cfg)).

Lemma worker_loop_turn fuel self w :
  worker_loop (S fuel) self w
  = match is_set w with
    | (Val true, w0) => (Val Finished, w0)
    | (Val false, w0) =>
        match iteration self w0 with
        | (Val _, w1) => worker_loop fuel self w1
        | (Raise e, w1) => (Raise e, w1)
        end
    | (Raise e, w0) => (Raise e, w0)
    end.
Proof.
  cbn [worker_loop]. unfold bind at 1.
  destruct (is_set w) as [[[]|e] w0]; try done.
Qed.

(** ** What no function of the service touches

    A property of the world that depends neither on the store, the
    connection, the queue, the clock, the script, the trace nor the log is
    kept by every function below; the stop flag and the set of files are
    such properties. *)

(** Invariants follow the shape of a computation; [world_tac] settles the
    world updates. *)
Ltac invariant_steps world_tac :=
  repeat first
    [ assumption
    | match goal with
      | H : _ |- invariant _ _ => apply H
      end
    | apply invariant_ret | apply invariant_raise | apply invariant_lift
    | apply invariant_gets | apply invariant_when
    | apply invariant_modify; world_tac
    | apply invariant_bind; [|intros ?]
    | apply invariant_try_except; [|intros ?]
    | apply invariant_try_finally
    | progress cbv zeta
    | match goal with
      | |- invariant _ (match ?x with _ => _ end) => destruct x
      | |- invariant _ (if ?b then _ else _) => destruct b
      end ].

Section Untouched.

Variable P : World -> Prop.
Hypothesis P_script : forall s w, P w -> P (set_script s w).
Hypothesis P_log : forall o w, P w -> P (add_log o w).
Hypothesis P_trace : forall c ok w, P w -> P (add_trace c ok w).
Hypothesis P_conn : forall c w, P w -> P (set_conn c w).
Hypothesis P_committed : forall t w, P w -> P (set_committed t w).
Hypothesis P_queue : forall q w, P w -> P (set_queue q w).
Hypothesis P_clock : forall t w, P w -> P (set_clock t w).

Ltac untouched_world :=
  intros;
  repeat first [ apply P_script | apply P_log | apply P_trace | apply P_conn
               | apply P_committed | apply P_queue | apply P_clock ];
  assumption.

Lemma untouched_ext c : invariant P (ext c).
Proof.
  intros w Hw. unfold ext.
  destruct (script w) as [|[e|] rest]; cbn; untouched_world.
Qed.

Ltac untouched := invariant_steps untouched_world.

Lemma untouched_by_connection :
  invariant P cursor /\ invariant P connect /\ invariant P is_connected
  /\ invariant P close /\ invariant P reconnect /\ invariant P get_cursor
  /\ invariant P commit /\ invariant P rollback
  /\ forall s, invariant P (execute s).
Proof.
  pose proof untouched_ext as Hext.
  assert (invariant P cursor) as Hcursor by (unfold cursor; untouched).
  assert (forall s, invariant P (execute s)) as Hexecute
    by (intros s; unfold execute; untouched).
  assert (invariant P connect) as Hconnect
    by (unfold connect, logger_info; untouched).
  assert (invariant P is_connected) as Hprobe
    by (unfold is_connected, cursor_close; untouched).
  assert (invariant P close) as Hclose by (unfold close; untouched).
  assert (invariant P reconnect) as Hreconnect
    by (unfold reconnect, logger_info; untouched).
  assert (invariant P get_cursor) as Hget by (unfold get_cursor; untouched).
  assert (invariant P commit) as Hcommit by (unfold commit; untouched).
  assert (invariant P rollback) as Hrollback by (unfold rollback; untouched).
  done.
Qed.

Lemma untouched_by_writes id status error emb :
  invariant P (_update_track_status id status)
  /\ invariant P (_mark_failed id error)
  /\ invariant P (_store_embedding id emb).
Proof.
  destruct untouched_by_connection
    as (_ & _ & _ & _ & _ & Hget & Hcommit & Hrollback & Hexecute).
  unfold _update_track_status, _mark_failed, _store_embedding, cursor_close,
    logger_error, traceback_print_exc, utcnow.
  split; [|split]; untouched.
Qed.

Lemma untouched_by_analyzer self audio_path text :
  invariant P (get_audio_embedding self audio_path)
  /\ invariant P (get_text_embedding self text).
Proof.
  assert (forall a, invariant P (pad_to_1024 a)) as Hpad.
  { intros a. unfold pad_to_1024. destruct (_ <? _)%nat; untouched. }
  unfold get_audio_embedding, get_text_embedding, exists_, infer, note,
    logger_error, logger_warning, traceback_print_exc.
  split; destruct (model self); untouched.
Qed.

Lemma untouched_by_process_job self : invariant P (_process_job self).
Proof.
  pose proof untouched_ext as Hext.
  assert (forall id status, invariant P (_update_track_status id status))
    as Hstatus by (intros; by apply (untouched_by_writes _ _ "" (np_zeros 0))).
  assert (forall id error, invariant P (_mark_failed id error))
    as Hfailed by (intros; by apply (untouched_by_writes _ "" _ (np_zeros 0))).
  assert (forall id emb, invariant P (_store_embedding id emb))
    as Hstore by (intros; by apply (untouched_by_writes _ "" "")).
  assert (forall self path, invariant P (get_audio_embedding self path))
    as Haudio by (intros; by apply (untouched_by_analyzer _ _ "")).
  unfold _process_job, blpop, logger_warning, logger_info.
  untouched.
Qed.

Lemma untouched_by_iteration self : invariant P (iteration self).
Proof.
  pose proof (untouched_by_process_job self) as Hjob.
  destruct untouched_by_connection as (_ & _ & _ & _ & Hreconnect & _).
  unfold iteration, logger_error, traceback_print_exc, sleep, note.
  untouched.
Qed.

Lemma untouched_by_handle_message self message :
  invariant P (_handle_message self message).
Proof.
  pose proof untouched_ext as Hext.
  assert (forall self text, invariant P (get_text_embedding self text))
    as Htext by (intros; by apply (untouched_by_analyzer _ "")).
  unfold _handle_message, logger_warning, logger_info, logger_error,
    traceback_print_exc.
  untouched.
Qed.

End Untouched.

(** ** The stop flag *)

Lemma iteration_stop_in self w : stop_in (iteration self w).2 = stop_in w.
Proof.
  by apply (untouched_by_iteration (fun w' => stop_in w' = stop_in w)).
Qed.

(** X1.  The stop flag is looked at once per turn, before the queue: a flag
    that is set ends the loop at once, with no call and no change; a flag
    that is set within [n] looks ends the loop (or an exception does) within
    [n + 1] turns; and the loop finishes only if the flag was set. *)
Theorem worker_loop_cooperative_stop self :
  (forall fuel w,
     stop_in w = Some 0 -> worker_loop (S fuel) self w = (Val Finished, w))
  /\ (forall n fuel w,
        stop_in w = Some n -> n < fuel ->
        (worker_loop fuel self w).1 <> Val Running)
  /\ (forall fuel w,
        (worker_loop fuel self w).1 = Val Finished -> stop_in w <> None).
Proof.
  split; [|split].
  - intros fuel w Hs. rewrite worker_loop_turn. unfold is_set. by rewrite Hs.
  - intros n fuel. revert n.
    induction fuel as [|fuel IH]; intros n w Hs Hlt; [lia|].
    rewrite worker_loop_turn. unfold is_set. rewrite Hs.
    destruct n as [|n]; [done|].
    pose proof (iteration_stop_in self (set_stop_in (Some n) w)) as Hit.
    destruct (iteration self (set_stop_in (Some n) w)) as [[[]|e] w1];
      [|done].
    apply (IH n); [exact Hit|lia].
  - intros fuel. induction fuel as [|fuel IH]; intros w; [done|].
    rewrite worker_loop_turn. unfold is_set.
    destruct (stop_in w) as [[|n]|] eqn:Hs; [done|done|].
    pose proof (iteration_stop_in self w) as Hit.
    destruct (iteration self w) as [[[]|e] w1]; [|done].
    intros H%IH. cbn in Hit. congruence.
Qed.

(** ** DatabaseConnection *)

(** The next [k] calls to psycopg2 or redis all go through. *)
Definition next_calls_succeed (k : nat) (w : World) : Prop :=
  Forall (fun o => o = None) (take k (script w)).

Ltac by_script w :=
  destruct w as [fi co cn qu cl st sc tr lg];
  cbn [conn script trace committed files queue clock stop_in log];
  unfold next_calls_succeed;
  cbn [conn script trace committed files queue clock stop_in log].

(** X2.  [is_connected] never raises and never changes the committed
    tables.  Without a connection it answers [False] and makes no call.  It
    answers [True] exactly when there is a connection and the two calls of
    the probe, the cursor and SELECT 1, go through. *)
Theorem is_connected_probe w :
  (exists alive, (is_connected w).1 = Val alive)
  /\ committed (is_connected w).2 = committed w
  /\ view (is_connected w).2 = view w
  /\ (conn w = None -> is_connected w = (Val false, w))
  /\ ((is_connected w).1 = Val true
      <-> conn w <> None /\ next_calls_succeed 2 w)
  /\ ((is_connected w).1 = Val true ->
      trace (is_connected w).2
      = trace w ++ [(conn_cursor, true); (cursor_execute SELECT_1, true)]).
Proof.
  by_script w. unfold is_connected, bind, gets, try_except, cursor, execute,
    cursor_close, ext, modify, ret.
  cbn [conn]. destruct cn as [[t]|].
  - destruct sc as [|[e1|] [|[e2|] sc]]; cbn; rewrite <- ?app_assoc;
      (split; [by eexists|]); (split; [done|]);
      (split; [by destruct t|]); (split; [done|]);
      (split; [|done]); split; try done;
      try (intros _; split; [done|]; by repeat constructor);
      try (intros [_ H]; by repeat (apply Forall_cons in H as [? H])).
  - split; [by eexists|]. repeat (split; try done). by intros [].
Qed.

Lemma close_disconnects w :
  (close w).1 = Val tt
  /\ conn (close w).2 = None
  /\ committed (close w).2 = committed w
  /\ view (close w).2 = committed w
  /\ (conn w = None -> close w = (Val tt, w))
  /\ (conn w <> None ->
      trace (close w).2 = trace w ++ [(conn_close, next_call_succeeds w)]).
Proof.
  by_script w. unfold close, bind, gets, try_except, ext, modify, ret,
    next_call_succeeds.
  cbn [conn]. destruct cn as [c|].
  - destruct sc as [|[e1|] sc]; cbn; repeat (split; try done).
  - repeat (split; try done).
Qed.

(** X3.  [close] never raises, whatever [conn.close()] does, and always
    leaves the worker without a connection; an open transaction is dropped
    with it and the committed tables are unchanged.  Without a connection it
    does nothing at all. *)
Theorem close_always_disconnects w :
  (close w).1 = Val tt
  /\ conn (close w).2 = None
  /\ committed (close w).2 = committed w
  /\ view (close w).2 = committed w
  /\ (conn w = None -> close w = (Val tt, w))
  /\ (conn w <> None ->
      trace (close w).2 = trace w ++ [(conn_close, next_call_succeeds w)]).
Proof.
  exact (close_disconnects w).
Qed.

Lemma connect_cases w :
  (str_truthy (DATABASE_URL cfg) = false ->
   connect w = (Raise (ValueError "DATABASE_URL not set"), w))
  /\ (str_truthy (DATABASE_URL cfg) = true ->
      ((connect w).1 = Val tt <-> next_calls_succeed 3 w)
      /\ conn (connect w).2
         = (if next_call_succeeds w then Some {| transaction := None |}
            else conn w)
      /\ committed (connect w).2 = committed w
      /\ exists rest,
           trace (connect w).2
           = trace w
             ++ (psycopg2_connect (DATABASE_URL cfg), next_call_succeeds w)
                :: rest).
Proof.
  unfold connect. split; intros Hurl; rewrite Hurl; [done|]. cbn [negb].
  by_script w. unfold bind, ext, modify, logger_info, next_call_succeeds.
  destruct sc as [|[e1|] [|[e2|] [|[e3|] sc]]]; cbn; rewrite <- ?app_assoc;
    (split; [|split; [done|split; [done|by eexists]]]);
    split; try done; try (intros _; by repeat constructor);
    intros H; by repeat (apply Forall_cons in H as [? H]).
Qed.

(** X4.  [connect] raises [ValueError] and makes no call when the URL is
    empty.  Otherwise it returns exactly when its three calls go through
    ([psycopg2.connect], [set_client_encoding], [register_vector]); the
    connection is assigned as soon as [psycopg2.connect] returns, so it stays
    assigned when one of the two later calls raises, and it is left as it was
    when [psycopg2.connect] itself raises. *)
Theorem connect_outcomes w :
  (str_truthy (DATABASE_URL cfg) = false ->
   connect w = (Raise (ValueError "DATABASE_URL not set"), w))
  /\ (str_truthy (DATABASE_URL cfg) = true ->
      ((connect w).1 = Val tt <-> next_calls_succeed 3 w)
      /\ conn (connect w).2
         = (if next_call_succeeds w then Some {| transaction := None |}
            else conn w)
      /\ committed (connect w).2 = committed w
      /\ exists rest,
           trace (connect w).2
           = trace w
             ++ (psycopg2_connect (DATABASE_URL cfg), next_call_succeeds w)
                :: rest).
Proof.
  exact (connect_cases w).
Qed.

Lemma reconnect_run w :
  reconnect w
  = connect (close (add_log (logger INFO Reconnecting_to_database) w)).2.
Proof.
  unfold reconnect, bind, logger_info, modify.
  pose proof (close_disconnects
                (add_log (logger INFO Reconnecting_to_database) w)) as [H _].
  by destruct (close _) as [[[]|e] w1].
Qed.

Lemma reconnect_afresh w :
  committed (reconnect w).2 = committed w
  /\ idle (reconnect w).2
  /\ ((reconnect w).1 = Val tt
      <-> str_truthy (DATABASE_URL cfg) = true
          /\ next_calls_succeed 3
               (close (add_log (logger INFO Reconnecting_to_database) w)).2)
  /\ ((reconnect w).1 = Val tt ->
      conn (reconnect w).2 = Some {| transaction := None |}).
Proof.
  rewrite reconnect_run.
  set (w0 := add_log (logger INFO Reconnecting_to_database) w).
  destruct (close_disconnects w0) as (_ & Hconn & Hcomm & _).
  destruct (connect_cases (close w0).2) as [Hempty Hset].
  destruct (str_truthy (DATABASE_URL cfg)) eqn:Hurl.
  - destruct (Hset eq_refl) as (Hret & Hc & Hcomm' & _).
    split; [by rewrite Hcomm', Hcomm|].
    split.
    { unfold idle, view. rewrite Hc, Hconn. by destruct (next_call_succeeds _). }
    split; [rewrite Hret; by intuition|].
    intros Hval. rewrite Hc. apply Hret in Hval.
    unfold next_calls_succeed in Hval. unfold next_call_succeeds.
    destruct (script (close w0).2) as [|[e|] rest]; try done.
    by apply Forall_cons in Hval as [? _].
  - rewrite (Hempty eq_refl). cbn [fst snd].
    split; [done|]. split; [unfold idle, view; by rewrite Hconn|].
    split; [|done]. split; [done|by intros []].
Qed.

(** X5.  [reconnect] never keeps the old session: whether it returns or
    raises, the committed tables are unchanged and no uncommitted change is
    left in view.  It returns exactly when the URL is set and the three calls
    of [connect] go through, and then the worker holds a new connection
    without open transaction. *)
Theorem reconnect_starts_afresh w :
  committed (reconnect w).2 = committed w
  /\ idle (reconnect w).2
  /\ ((reconnect w).1 = Val tt
      <-> str_truthy (DATABASE_URL cfg) = true
          /\ next_calls_succeed 3
               (close (add_log (logger INFO Reconnecting_to_database) w)).2)
  /\ ((reconnect w).1 = Val tt ->
      conn (reconnect w).2 = Some {| transaction := None |}).
Proof.
  exact (reconnect_afresh w).
Qed.

(** X6.  [get_cursor] never changes the committed tables and sends no
    statement of a job; when it returns the worker holds a connection.  A
    connection whose probe goes through is reused: the calls are the two of
    the probe and the cursor, and nothing is reconnected.  Without a
    connection the first call is [psycopg2.connect], or [ValueError] is
    raised with no call when the URL is empty. *)
Theorem get_cursor_reuses_connection w :
  committed (get_cursor w).2 = committed w
  /\ track_updates (trace (get_cursor w).2) = track_updates (trace w)
  /\ ((get_cursor w).1 = Val tt -> conn (get_cursor w).2 <> None)
  /\ (conn w <> None -> next_calls_succeed 2 w ->
      view (get_cursor w).2 = view w
      /\ trace (get_cursor w).2
         = trace w
           ++ [(conn_cursor, true); (cursor_execute SELECT_1, true);
               (conn_cursor, next_call_succeeds (is_connected w).2)])
  /\ (conn w = None ->
      if str_truthy (DATABASE_URL cfg) then
        exists rest,
          trace (get_cursor w).2
          = trace w
            ++ (psycopg2_connect (DATABASE_URL cfg), next_call_succeeds w)
               :: rest
      else
        (get_cursor w).1 = Raise (ValueError "DATABASE_URL not set")
        /\ trace (get_cursor w).2 = trace w).
Proof.
  split; [apply get_cursor_committed|].
  split; [apply get_cursor_track_updates|].
  split.
  { intros Hret Hnone.
    destruct (get_cursor w) as [[[]|e] w1] eqn:Hcursor; [|done].
    destruct (get_cursor_connected w w1 Hcursor) as [c Hc]. cbn in Hnone.
    congruence. }
  split.
  - by_script w. intros Hconn Hok. destruct cn as [[t]|]; [|done].
    unfold get_cursor, is_connected, when, reconnect, bind, gets, try_except,
      cursor, execute, cursor_close, ext, modify, ret, next_call_succeeds.
    revert Hok. cbn [script conn].
    destruct sc as [|[e1|] [|[e2|] [|[e3|] sc]]]; cbn; rewrite <- ?app_assoc;
      intros Hok; try (by destruct t);
      by repeat (apply Forall_cons in Hok as [? Hok]).
  - by_script w. intros Hconn. subst cn.
    unfold get_cursor, is_connected, when, reconnect, close, connect, bind,
      gets, logger_info, modify, next_call_succeeds.
    cbn [conn negb add_log].
    destruct (str_truthy (DATABASE_URL cfg)); cbn [negb]; [|done].
    unfold bind, cursor, ext, gets, modify.
    destruct sc as [|[e1|] [|[e2|] [|[e3|] [|[e4|] sc]]]]; cbn;
      rewrite <- ?app_assoc; by eexists.
Qed.

(** ** The writes of the worker *)

Lemma update_status_lookup status id rows i r :
  rows !! i = Some r ->
  update_status status id rows !! i
  = Some (if String.eqb (Track_id r) id then
            {| Track_id := Track_id r; analysisStatus := Some status;
               analysisError := analysisError r;
               analysisRetryCount := analysisRetryCount r |}
          else r).
Proof.
  revert i. induction rows as [|r0 rows IH]; intros [|i]; simpl; try done.
  - by intros [= ->].
  - apply IH.
Qed.

(** X7.  When [_update_track_status] obtains its cursor and the UPDATE and
    its commit go through, every row of "Track" with the given id gets the
    new status and keeps its error message and its retry count (a track that
    failed earlier and is processed again keeps the old error); the other
    rows and the embeddings are untouched. *)
Theorem update_track_status_sets_status id status w w1 :
  idle w ->
  get_cursor w = (Val tt, w1) ->
  attempt_commits (script w1) = true ->
  let w' := (_update_track_status id status w).2 in
  (_update_track_status id status w).1 = Val tt
  /\ track_embeddings (committed w') = track_embeddings (committed w)
  /\ length (Track (committed w')) = length (Track (committed w))
  /\ forall i r,
       Track (committed w) !! i = Some r ->
       exists r',
         Track (committed w') !! i = Some r'
         /\ Track_id r' = Track_id r
         /\ analysisError r' = analysisError r
         /\ analysisRetryCount r' = analysisRetryCount r
         /\ analysisStatus r'
            = (if String.eqb (Track_id r) id then Some status
               else analysisStatus r).
Proof.
  intros Hidle Hcursor Hcommit w'.
  destruct (get_cursor_connected w w1 Hcursor) as [c Hc].
  destruct (get_cursor_view w w1 Hidle Hcursor) as (Hview & _).
  destruct (update_track_status_written id status w w1 c Hcursor Hc)
    as (Hres & _ & Hcommitted & _).
  fold w' in Hcommitted. rewrite Hcommit, Hview in Hcommitted.
  rewrite Hcommitted. cbn [run_statement Track track_embeddings].
  split.
  { rewrite Hres. revert Hcommit. unfold attempt_commits.
    by destruct (attempt_result (script w1)) as [[]|]. }
  split; [done|]. split; [unfold update_status; apply length_map|].
  intros i r Hr. rewrite (update_status_lookup _ _ _ _ _ Hr).
  eexists. split; [done|]. by destruct (String.eqb (Track_id r) id).
Qed.

Lemma write_all_or_nothing {A} (op : M A) stmt w :
  idle w ->
  (forall w1 e, get_cursor w = (Raise e, w1) -> op w = (Raise e, w1)) ->
  (forall w1 c, get_cursor w = (Val tt, w1) -> conn w1 = Some c ->
                written stmt w1 (op w).2) ->
  idle (op w).2
  /\ (committed (op w).2 = committed w
      \/ exists w1, get_cursor w = (Val tt, w1)
                    /\ attempt_commits (script w1) = true
                    /\ committed (op w).2 = run_statement stmt (committed w)).
Proof.
  intros Hidle Hraise Hwritten.
  pose proof (get_cursor_idle w Hidle) as Hidle1.
  pose proof (get_cursor_committed w) as Hcomm1.
  destruct (get_cursor w) as [[[]|e] w1] eqn:Hcursor.
  - destruct (get_cursor_connected w w1 Hcursor) as [c Hc].
    destruct (Hwritten w1 c eq_refl Hc) as (_ & Hcommitted & Hidle' & _).
    split; [done|]. cbn in Hidle1, Hcomm1. unfold idle in Hidle1.
    rewrite Hcommitted.
    destruct (attempt_commits (script w1)) eqn:Hac; [right|by left].
    exists w1. by rewrite Hidle1, Hcomm1.
  - rewrite (Hraise w1 e eq_refl). auto.
Qed.

Lemma writes_atomic id status error emb w :
  idle w ->
  let u := _update_track_status id status w in
  let m := _mark_failed id error w in
  let s := _store_embedding id emb w in
  let insert := INSERT_embedding id (tolist emb) MODEL_VERSION (clock w) in
  (idle u.2 /\ idle m.2 /\ idle s.2)
  /\ (committed u.2 = committed w
      \/ committed u.2 = run_statement (UPDATE_status status id) (committed w))
  /\ (committed m.2 = committed w
      \/ committed m.2
         = run_statement (UPDATE_failed (slice_to 500 error) id) (committed w))
  /\ (s.1 = Val true -> committed s.2 = run_statement insert (committed w))
  /\ (s.1 <> Val true -> committed s.2 = committed w)
  /\ track_embeddings (committed u.2) = track_embeddings (committed w)
  /\ track_embeddings (committed m.2) = track_embeddings (committed w)
  /\ Track (committed s.2) = Track (committed w).
Proof.
  intros Hidle u m s insert.
  assert (forall w1 e, get_cursor w = (Raise e, w1) ->
                       u = (Raise e, w1) /\ m = (Raise e, w1)
                       /\ s = (Raise e, w1)) as Hraise
    by (intros w1 e H; apply (write_without_cursor id status error emb w w1 e H)).
  destruct (write_all_or_nothing (_update_track_status id status)
              (UPDATE_status status id) w Hidle) as [Hiu Hu].
  { intros w1 e H. by apply Hraise. }
  { intros w1 c H Hc. by apply (update_track_status_written id status w w1 c). }
  destruct (write_all_or_nothing (_mark_failed id error)
              (UPDATE_failed (slice_to 500 error) id) w Hidle) as [Him Hm].
  { intros w1 e H. by apply Hraise. }
  { intros w1 c H Hc. by apply (mark_failed_written id error w w1 c). }
  assert (idle s.2
          /\ (s.1 = Val true -> committed s.2 = run_statement insert (committed w))
          /\ (s.1 <> Val true -> committed s.2 = committed w)) as (His & Hs1 & Hs2).
  { pose proof (get_cursor_idle w Hidle) as Hidle1.
    pose proof (get_cursor_committed w) as Hcomm1.
    destruct (get_cursor w) as [[[]|e] w1] eqn:Hcursor.
    - destruct (get_cursor_connected w w1 Hcursor) as [c Hc].
      destruct (get_cursor_view w w1 Hidle Hcursor) as (Hview & Hcomm & Hclock).
      destruct (store_embedding_written id emb w w1 c Hcursor Hc)
        as (Hres & _ & Hcommitted & Hidle' & _).
      fold s in Hres, Hcommitted, Hidle'. rewrite Hclock, Hview, Hcomm in Hcommitted.
      fold insert in Hcommitted. split; [done|]. rewrite Hres, Hcommitted.
      unfold attempt_commits.
      destruct (attempt_result (script w1)) as [[]|]; done.
    - destruct (Hraise w1 e eq_refl) as (_ & _ & Hs). rewrite Hs. done. }
  subst u m s. cbn zeta.
  split; [done|].
  split; [destruct Hu as [Hu|(w1 & _ & _ & Hu)]; auto|].
  split; [destruct Hm as [Hm|(w1 & _ & _ & Hm)]; auto|].
  split; [done|]. split; [done|].
  split; [by destruct Hu as [->|(w1 & _ & _ & ->)]|].
  split; [by destruct Hm as [->|(w1 & _ & _ & ->)]|].
  destruct (_store_embedding id emb w).1 as [[]|e] eqn:Hr;
    [by rewrite Hs1|by rewrite Hs2..].
Qed.

(** X8.  Each write of the worker is all or nothing, whatever the store
    does: after [_update_track_status], [_mark_failed] or [_store_embedding]
    the committed tables are either unchanged or the former ones with the
    one statement applied, and no uncommitted change is left in the session.
    [_store_embedding] returns [True] only when its row is committed, and
    when it returns [False] or raises the committed tables are unchanged.  A
    status write never changes the embeddings and the upsert never changes
    "Track". *)
Theorem writes_are_all_or_nothing id status error emb w :
  idle w ->
  let u := _update_track_status id status w in
  let m := _mark_failed id error w in
  let s := _store_embedding id emb w in
  let insert := INSERT_embedding id (tolist emb) MODEL_VERSION (clock w) in
  (idle u.2 /\ idle m.2 /\ idle s.2)
  /\ (committed u.2 = committed w
      \/ committed u.2 = run_statement (UPDATE_status status id) (committed w))
  /\ (committed m.2 = committed w
      \/ committed m.2
         = run_statement (UPDATE_failed (slice_to 500 error) id) (committed w))
  /\ (s.1 = Val true -> committed s.2 = run_statement insert (committed w))
  /\ (s.1 <> Val true -> committed s.2 = committed w)
  /\ track_embeddings (committed u.2) = track_embeddings (committed w)
  /\ track_embeddings (committed m.2) = track_embeddings (committed w)
  /\ Track (committed s.2) = Track (committed w).
Proof.
  exact (writes_atomic id status error emb w).
Qed.

(** ** The session between two writes *)

Ltac same_session := intros ? H; exact H.

Lemma idle_ext c : invariant idle (ext c).
Proof.
  intros w Hw. unfold ext. by destruct (script w) as [|[e|] rest].
Qed.

Lemma idle_analyzer self audio_path text :
  invariant idle (get_audio_embedding self audio_path)
  /\ invariant idle (get_text_embedding self text).
Proof.
  assert (forall a, invariant idle (pad_to_1024 a)) as Hpad.
  { intros a. unfold pad_to_1024.
    destruct (_ <? _)%nat; invariant_steps same_session. }
  unfold get_audio_embedding, get_text_embedding, exists_, infer, note,
    logger_error, logger_warning, traceback_print_exc.
  split; destruct (model self); invariant_steps same_session.
Qed.

Lemma idle_process_job self : invariant idle (_process_job self).
Proof.
  pose proof idle_ext as Hext.
  assert (forall id status, invariant idle (_update_track_status id status))
    as Hstatus.
  { intros id status w Hw.
    by apply (writes_atomic id status "" (np_zeros 0) w Hw). }
  assert (forall id error, invariant idle (_mark_failed id error)) as Hfailed.
  { intros id error w Hw.
    by apply (writes_atomic id "" error (np_zeros 0) w Hw). }
  assert (forall id emb, invariant idle (_store_embedding id emb)) as Hstore.
  { intros id emb w Hw.
    by apply (writes_atomic id "" "" emb w Hw). }
  assert (forall self path, invariant idle (get_audio_embedding self path))
    as Haudio by (intros; by apply (idle_analyzer _ _ "")).
  unfold _process_job, blpop, logger_warning, logger_info.
  invariant_steps same_session.
Qed.

Lemma idle_iteration self : invariant idle (iteration self).
Proof.
  pose proof (idle_process_job self) as Hjob.
  assert (invariant idle reconnect) as Hreconnect
    by (intros w _; apply reconnect_afresh).
  unfold iteration, logger_error, traceback_print_exc, sleep, note.
  invariant_steps same_session.
Qed.

(** X9.  The worker never carries an uncommitted change from one operation
    to the next: if no transaction is pending when a job, a turn of the loop
    or the loop itself starts, none is pending when it ends, however it ends.
    (Each write ends with a commit or a rollback, and a reconnect starts a new
    session.) *)
Theorem worker_leaves_no_open_transaction self w :
  idle w ->
  idle (_process_job self w).2
  /\ idle (iteration self w).2
  /\ forall fuel, idle (worker_loop fuel self w).2.
Proof.
  intros Hidle. split; [by apply idle_process_job|].
  split; [by apply idle_iteration|].
  intros fuel. revert w Hidle.
  induction fuel as [|fuel IH]; intros w Hidle; [done|].
  rewrite worker_loop_turn. unfold is_set.
  destruct (stop_in w) as [[|n]|]; [done| |].
  - pose proof (idle_iteration self (set_stop_in (Some n) w) Hidle) as Hit.
    destruct (iteration self (set_stop_in (Some n) w)) as [[[]|e] w1];
      [by apply IH|done].
  - pose proof (idle_iteration self w Hidle) as Hit.
    destruct (iteration self w) as [[[]|e] w1]; [by apply IH|done].
Qed.

(** ** The queue *)

(** X10.  An empty queue gives a turn without effect: when [blpop] times out,
    [_process_job] returns having made that one call; the clock has advanced
    by the poll interval, and the store, the connection and the log are as
    before. *)
Theorem empty_queue_is_a_no_op self w :
  queue w = [] ->
  next_call_succeeds w = true ->
  let w' := (_process_job self w).2 in
  (_process_job self w).1 = Val tt
  /\ trace w' = trace w ++ [(redis_blpop ANALYSIS_QUEUE (SLEEP_INTERVAL cfg), true)]
  /\ clock w' = (clock w + SLEEP_INTERVAL cfg)%Z
  /\ committed w' = committed w /\ conn w' = conn w
  /\ log w' = log w /\ queue w' = [].
Proof.
  by_script w. intros Hq Hok. subst qu.
  unfold _process_job, blpop, bind, ext, gets, modify, ret.
  revert Hok. unfold next_call_succeeds. cbn [script queue].
  by destruct sc as [|[e|] sc].
Qed.

(** X11.  A message that is not a JSON object costs one turn and nothing
    else: [_process_job] raises [JSONDecodeError] (unparsable text) or
    [AttributeError] (a JSON value without [get]) before any call to the
    store, and the loop's [except Exception] block logs it, sleeps and goes
    on.  The message is gone from the queue; the store and the connection are
    untouched. *)
Theorem malformed_message_is_skipped self raw w w0 :
  blpop ANALYSIS_QUEUE (SLEEP_INTERVAL cfg) w = (Val (Some raw), w0) ->
  raw = Unparsable \/ raw = NonObject ->
  let e := match raw with
           | Unparsable => JSONDecodeError "Expecting value"
           | _ => AttributeError "object has no attribute 'get'"
           end in
  let w' := (iteration self w).2 in
  _process_job self w = (Raise e, w0)
  /\ (iteration self w).1 = Val tt
  /\ queue w = raw :: queue w'
  /\ committed w' = committed w /\ conn w' = conn w
  /\ trace w'
     = trace w ++ [(redis_blpop ANALYSIS_QUEUE (SLEEP_INTERVAL cfg), true);
                   (time_sleep (SLEEP_INTERVAL cfg), true)]
  /\ log w'
     = log w ++ [logger ERROR (Worker_error (worker_id self) e); traceback e].
Proof.
  intros Hpop Hraw e w'.
  assert (_process_job self w = (Raise e, w0)) as Hjob.
  { unfold _process_job, bind. rewrite Hpop. unfold lift.
    by destruct Hraw as [-> | ->]. }
  destruct (blpop_Some _ _ _ _ _ Hpop)
    as (Hq & Htrace & Hcomm & Hconn & _ & Hlog & _).
  assert (is_psycopg2_Error e = false) as He
    by (by destruct Hraw as [-> | ->]).
  split; [done|]. unfold w', iteration, try_except. rewrite Hjob, He.
  unfold bind, logger_error, traceback_print_exc, sleep, note, modify.
  cbn. rewrite Htrace, Hlog, <- !app_assoc. done.
Qed.

(** Nothing but [blpop] changes the queue. *)
Section QueueKept.

Variable q : list payload.

Let kept (w : World) : Prop := queue w = q.

Lemma queue_kept_ext c : invariant kept (ext c).
Proof.
  intros w Hw. unfold ext. by destruct (script w) as [|[e|] rest].
Qed.

Lemma queue_kept_get_cursor : invariant kept get_cursor.
Proof. by apply invariant_get_cursor. Qed.

Lemma queue_kept_reconnect : invariant kept reconnect.
Proof. by apply invariant_reconnect. Qed.

Lemma queue_kept_writes id status error emb :
  invariant kept (_update_track_status id status)
  /\ invariant kept (_mark_failed id error)
  /\ invariant kept (_store_embedding id emb).
Proof.
  pose proof queue_kept_ext as Hext.
  pose proof queue_kept_get_cursor as Hcursor.
  unfold _update_track_status, _mark_failed, _store_embedding, cursor_close,
    logger_error, traceback_print_exc, utcnow, execute, commit, rollback.
  split; [|split]; invariant_steps same_session.
Qed.

Lemma queue_kept_analyzer self audio_path :
  invariant kept (get_audio_embedding self audio_path).
Proof.
  assert (forall a, invariant kept (pad_to_1024 a)) as Hpad.
  { intros a. unfold pad_to_1024.
    destruct (_ <? _)%nat; invariant_steps same_session. }
  unfold get_audio_embedding, exists_, infer, note, logger_error,
    logger_warning, traceback_print_exc.
  destruct (model self); invariant_steps same_session.
Qed.

End QueueKept.

Lemma process_job_takes_one self w :
  queue (_process_job self w).2 = queue w
  \/ exists raw, queue w = raw :: queue (_process_job self w).2.
Proof.
  remember (_process_job self w) as r eqn:Hr.
  unfold _process_job in Hr. unfold bind at 1 in Hr. cbv beta in Hr.
  destruct (blpop ANALYSIS_QUEUE (SLEEP_INTERVAL cfg) w)
    as [[[raw|]|e] w0] eqn:Hpop; subst r.
  - right. exists raw. destruct (blpop_Some _ _ _ _ _ Hpop) as (Hq & _).
    rewrite Hq. f_equal. symmetry.
    cut (invariant (fun w' => queue w' = queue w0)
              (job <- lift (json_loads raw) ;;
               id <- lift (get job "trackId") ;;
               file_path <- lift (get_default job "filePath" "") ;;
               if negb (truthy id) then logger_warning (Invalid_job job)
               else
                 let id := default "" id in
                 logger_info (Worker_processing_track (worker_id self) id) ;;
                 _update_track_status id "processing" ;;
                 let normalized_path := replace "\" "/" file_path in
                 let full_path := os_path_join (MUSIC_PATH cfg) normalized_path in
                 emb <- get_audio_embedding (analyzer self) full_path ;;
                 match emb with
                 | None => _mark_failed id "Failed to generate embedding"
                 | Some emb =>
                     success <- _store_embedding id emb ;;
                     if success : bool then
                       _update_track_status id "completed" ;;
                       logger_info (Worker_completed_track (worker_id self) id)
                     else _mark_failed id "Failed to store embedding"
                 end)); [intros Hk; exact (Hk w0 eq_refl)|].
    assert (forall id status,
              invariant (fun w' => queue w' = queue w0)
                (_update_track_status id status)) as Hstatus
      by (intros; by apply (queue_kept_writes _ _ _ "" (np_zeros 0))).
    assert (forall id error,
              invariant (fun w' => queue w' = queue w0) (_mark_failed id error))
      as Hfailed by (intros; by apply (queue_kept_writes _ _ "" _ (np_zeros 0))).
    assert (forall id emb,
              invariant (fun w' => queue w' = queue w0) (_store_embedding id emb))
      as Hstore by (intros; by apply (queue_kept_writes _ _ "" "")).
    assert (forall self path,
              invariant (fun w' => queue w' = queue w0)
                (get_audio_embedding self path)) as Haudio
      by (intros; apply queue_kept_analyzer).
    unfold logger_warning, logger_info. invariant_steps same_session.
  - left. revert Hpop. unfold blpop, bind, ext, gets, modify, ret.
    destruct (script w) as [|[e|] rest]; cbn; [| done |];
      destruct (queue w) as [|raw' q'] eqn:Hq; cbn; intros [= <-]; done.
  - left. revert Hpop. unfold blpop, bind, ext, gets, modify, ret.
    destruct (script w) as [|[e'|] rest]; cbn;
      try (destruct (queue w) as [|raw' q'] eqn:Hq; cbn; done).
    by intros [= _ <-].
Qed.

Lemma iteration_takes_one self w :
  queue (iteration self w).2 = queue w
  \/ exists raw, queue w = raw :: queue (iteration self w).2.
Proof.
  pose proof (process_job_takes_one self w) as Hjob.
  unfold iteration, try_except.
  destruct (_process_job self w) as [[[]|e] w1]; [done|].
  cbn [snd] in Hjob.
  assert (invariant (fun w' => queue w' = queue w1)
            (if is_psycopg2_Error e then
               logger_error (Worker_database_error (worker_id self) e) ;;
               traceback_print_exc e ;; reconnect ;; sleep (SLEEP_INTERVAL cfg)
             else
               logger_error (Worker_error (worker_id self) e) ;;
               traceback_print_exc e ;; sleep (SLEEP_INTERVAL cfg))) as Hh.
  { pose proof (queue_kept_reconnect (queue w1)) as Hreconnect.
    unfold logger_error, traceback_print_exc, sleep, note.
    invariant_steps same_session. }
  specialize (Hh w1 eq_refl). cbn beta in Hh. by rewrite Hh.
Qed.

(** X12.  A message taken from the queue is never put back: a job, and a
    turn of the loop, take at most the first message and leave the rest of
    the queue as it was, however the job ends (done, failed, or cut short by
    an exception); after any number of turns the queue is a tail of the
    former one. *)
Theorem messages_are_never_requeued self w :
  (queue (_process_job self w).2 = queue w
   \/ exists raw, queue w = raw :: queue (_process_job self w).2)
  /\ (queue (iteration self w).2 = queue w
      \/ exists raw, queue w = raw :: queue (iteration self w).2)
  /\ forall fuel, queue (worker_loop fuel self w).2 `suffix_of` queue w.
Proof.
  split; [apply process_job_takes_one|]. split; [apply iteration_takes_one|].
  intros fuel. revert w. induction fuel as [|fuel IH]; intros w; [done|].
  rewrite worker_loop_turn. unfold is_set.
  assert (forall w0, queue w0 = queue w ->
            (match iteration self w0 with
             | (Val _, w1) => worker_loop fuel self w1
             | (Raise e, w1) => (Raise e, w1)
             end).2.(queue) `suffix_of` queue w) as Hturn.
  { intros w0 H0. pose proof (iteration_takes_one self w0) as Hit.
    pose proof (IH (iteration self w0).2) as Hrest.
    assert (queue (iteration self w0).2 `suffix_of` queue w) as Hsuf.
    { rewrite <- H0. destruct Hit as [->|[raw ->]]; [done|].
      by apply suffix_cons_r. }
    destruct (iteration self w0) as [[[]|e] w1]; [|done].
    by etrans. }
  destruct (stop_in w) as [[|n]|]; [done| |]; by apply Hturn.
Qed.

(** ** What the tables keep *)

(** The statements of the worker update rows of [Track] in place and upsert
    into [track_embeddings]. *)
Definition same_tracks (ids : list string) (t : Tables) : Prop :=
  map Track_id (Track t) = ids /\ NoDup (map track_id (track_embeddings t)).

Lemma update_status_ids status id rows :
  map Track_id (update_status status id rows) = map Track_id rows.
Proof.
  unfold update_status. induction rows as [|r rows IH]; simpl; [done|].
  rewrite IH. by destruct (String.eqb _ _).
Qed.

Lemma update_failed_ids error id rows :
  map Track_id (update_failed error id rows) = map Track_id rows.
Proof.
  unfold update_failed. induction rows as [|r rows IH]; simpl; [done|].
  rewrite IH. by destruct (String.eqb _ _).
Qed.

Lemma run_statement_same_tracks ids s t :
  same_tracks ids t -> same_tracks ids (run_statement s t).
Proof.
  intros [Hids Hkeys]. unfold same_tracks.
  destruct s as [|status id|error id|id v ver ts]; cbn [run_statement Track track_embeddings];
    rewrite ?update_status_ids, ?update_failed_ids; try done.
  split; [done|]. by apply insert_embedding_NoDup.
Qed.

(** A property of the world that every step of the worker keeps. *)
Section Preserved.

Variable P : World -> Prop.
Hypothesis P_script : forall s w, P w -> P (set_script s w).
Hypothesis P_log : forall o w, P w -> P (add_log o w).
Hypothesis P_trace : forall c ok w, P w -> P (add_trace c ok w).
Hypothesis P_queue : forall q w, P w -> P (set_queue q w).
Hypothesis P_clock : forall t w, P w -> P (set_clock t w).
Hypothesis P_stop_in : forall n w, P w -> P (set_stop_in n w).
Hypothesis P_disconnect : forall w, P w -> P (set_conn None w).
Hypothesis P_session :
  forall w, P w -> P (set_conn (Some {| transaction := None |}) w).
Hypothesis P_execute :
  forall s w,
    P w ->
    P (set_conn (Some {| transaction := Some (run_statement s (view w)) |}) w).
Hypothesis P_commit :
  forall w,
    P w ->
    P (set_conn (Some {| transaction := None |}) (set_committed (view w) w)).

Ltac preserved_world :=
  intros ? ?;
  first [ by apply P_log | by apply P_trace | by apply P_script
        | by apply P_queue | by apply P_clock | by apply P_disconnect
        | by apply P_session | by apply P_execute | by apply P_commit ].

Ltac preserved := invariant_steps preserved_world.

Lemma preserved_ext c : invariant P (ext c).
Proof.
  intros w Hw. unfold ext.
  destruct (script w) as [|[e|] rest]; cbn [snd];
    auto using P_script, P_trace.
Qed.

Lemma preserved_by_process_job self : invariant P (_process_job self).
Proof.
  pose proof preserved_ext as Hext.
  assert (forall a, invariant P (pad_to_1024 a)) as Hpad.
  { intros a. unfold pad_to_1024. destruct (_ <? _)%nat; preserved. }
  assert (invariant P get_cursor) as Hcursor.
  { unfold get_cursor, is_connected, reconnect, close, connect, cursor,
      execute, cursor_close, logger_info.
    preserved. }
  assert (forall self path, invariant P (get_audio_embedding self path))
    as Haudio.
  { intros a path.
    unfold get_audio_embedding, exists_, infer, note, logger_error,
      logger_warning, traceback_print_exc.
    destruct (model a); preserved. }
  unfold _process_job, blpop, _update_track_status, _mark_failed,
    _store_embedding, cursor_close, utcnow, execute, commit, rollback,
    logger_warning, logger_info, logger_error, traceback_print_exc.
  preserved.
Qed.

Lemma preserved_by_iteration self : invariant P (iteration self).
Proof.
  pose proof preserved_ext as Hext.
  pose proof (preserved_by_process_job self) as Hjob.
  unfold iteration, reconnect, close, connect, logger_info, logger_error,
    traceback_print_exc, sleep, note.
  preserved.
Qed.

Lemma preserved_by_worker_loop fuel self : invariant P (worker_loop fuel self).
Proof.
  induction fuel as [|fuel IH]; intros w Hw; [done|].
  rewrite worker_loop_turn. unfold is_set.
  pose proof (preserved_by_iteration self) as Hit.
  assert (forall w0, P w0 ->
            P (match iteration self w0 with
               | (Val _, w1) => worker_loop fuel self w1
               | (Raise e, w1) => (Raise e, w1)
               end).2) as Hturn.
  { intros w0 H0. specialize (Hit w0 H0).
    destruct (iteration self w0) as [[[]|e] w1]; [by apply IH|done]. }
  destruct (stop_in w) as [[|n]|]; [done| |]; auto.
Qed.

End Preserved.

(** X13.  The worker never adds or removes a [Track] row and never leaves two
    embedding rows for one track: from a world without an open transaction,
    the ids of [Track] (in their order) and the uniqueness of [track_id] in
    [track_embeddings] are the same after a job, a turn of the loop, or any
    number of turns, whatever failed on the way. *)
Theorem worker_keeps_the_tracks ids self w :
  idle w ->
  same_tracks ids (committed w) ->
  same_tracks ids (committed (_process_job self w).2)
  /\ same_tracks ids (committed (iteration self w).2)
  /\ forall fuel, same_tracks ids (committed (worker_loop fuel self w).2).
Proof.
  intros Hidle Hsame.
  set (P := fun w' : World =>
              same_tracks ids (committed w') /\ same_tracks ids (view w')).
  assert (P w) as HP by (split; [done|by rewrite Hidle]).
  assert (forall s w', P w' -> P (set_script s w')) as H1 by done.
  assert (forall o w', P w' -> P (add_log o w')) as H2 by done.
  assert (forall c ok w', P w' -> P (add_trace c ok w')) as H3 by done.
  assert (forall q w', P w' -> P (set_queue q w')) as H4 by done.
  assert (forall t w', P w' -> P (set_clock t w')) as H5 by done.
  assert (forall n w', P w' -> P (set_stop_in n w')) as H6 by done.
  assert (forall w', P w' -> P (set_conn None w')) as H7
    by (intros w' [Hc _]; by split).
  assert (forall w', P w' ->
            P (set_conn (Some {| transaction := None |}) w')) as H8
    by (intros w' [Hc _]; by split).
  assert (forall s w', P w' ->
            P (set_conn
                 (Some {| transaction := Some (run_statement s (view w')) |})
                 w')) as H9
    by (intros s w' [Hc Hv]; split; [done|];
        by apply run_statement_same_tracks).
  assert (forall w', P w' ->
            P (set_conn (Some {| transaction := None |})
                 (set_committed (view w') w'))) as H10
    by (intros w' [Hc Hv]; by split).
  split; [|split; [|intros fuel]].
  - by apply (preserved_by_process_job P H1 H2 H3 H4 H5 H7 H8 H9 H10 self w HP).
  - by apply (preserved_by_iteration P H1 H2 H3 H4 H5 H7 H8 H9 H10 self w HP).
  - by apply (preserved_by_worker_loop P H1 H2 H3 H4 H5 H6 H7 H8 H9 H10
                fuel self w HP).
Qed.

(** ** Starting and stopping the worker *)

Lemma close_run w :
  (close w).1 = Val tt /\ conn (close w).2 = None
  /\ log (close w).2 = log w /\ committed (close w).2 = committed w
  /\ queue (close w).2 = queue w.
Proof.
  unfold close, bind, gets, try_except, ext, modify, ret.
  destruct (conn w) as [c|] eqn:Hc; [|done].
  destruct (script w) as [|[e|] rest]; done.
Qed.

(** X14.  [start] always ends its database session: whenever the run is over
    (the loop ended or an exception left it), the connection is closed, the
    last line of the log is the stop message, and the exception, if any, is
    passed on.  With a Redis URL of a known scheme, a database that cannot be
    reached at start-up ends the run before any job is taken. *)
Theorem start_closes_the_connection fuel self w :
  startswith "redis://" (REDIS_URL cfg) || startswith "rediss://" (REDIS_URL cfg)
    || startswith "unix://" (REDIS_URL cfg) = true ->
  let w1 := set_conn None (add_log (logger INFO (Worker_starting (worker_id self))) w) in
  ((start fuel self w).1 <> Val Running ->
     conn (start fuel self w).2 = None
     /\ last (log (start fuel self w).2)
        = Some (logger INFO (Worker_stopped (worker_id self))))
  /\ (forall e, (connect w1).1 = Raise e ->
        (start fuel self w).1 = Raise e
        /\ queue (start fuel self w).2 = queue w
        /\ committed (start fuel self w).2 = committed w)
  /\ ((connect w1).1 = Val tt ->
        (start fuel self w).1 = (worker_loop fuel self (connect w1).2).1).
Proof.
  intros Hurl w1.
  assert (forall m : M run,
            let r := m w1 in
            (logger_info (Worker_starting (worker_id self)) ;;
             fun w =>
               match from_url (REDIS_URL cfg) w with
               | (Raise e, w1) =>
                   (logger_info (Worker_stopped (worker_id self)) ;; raise e) w1
               | (Val _, w1) =>
                   match (modify (set_conn None) ;; m) w1 with
                   | (Val Running, w2) => (Val Running, w2)
                   | (r, w2) =>
                       match (close ;; logger_info (Worker_stopped (worker_id self))) w2 with
                       | (Val _, w3) => (r, w3)
                       | (Raise e, w3) => (Raise e, w3)
                       end
                   end
               end) w
            = match r.1 with
              | Val Running => r
              | _ => (r.1, add_log (logger INFO (Worker_stopped (worker_id self)))
                             (close r.2).2)
              end) as Hstart.
  { intros m r. subst r w1.
    unfold bind at 1 2. unfold logger_info at 1, modify at 1. cbv beta.
    unfold from_url. rewrite Hurl. unfold ret at 1. cbv beta iota.
    unfold bind at 1. unfold modify at 1.
    destruct (m _) as [[[]|e] w2]; cbn [fst snd]; try done.
    - unfold bind. pose proof (close_run w2) as (Hr & _).
      destruct (close w2) as [[[]|e] w3]; [done|discriminate Hr].
    - unfold bind. pose proof (close_run w2) as (Hr & _).
      destruct (close w2) as [[[]|e'] w3]; [done|discriminate Hr]. }
  pose proof (Hstart (connect ;; worker_loop fuel self)) as Hs.
  change (start fuel self w
          = match ((connect ;; worker_loop fuel self) w1).1 with
            | Val Running => (connect ;; worker_loop fuel self) w1
            | _ => (((connect ;; worker_loop fuel self) w1).1,
                    add_log (logger INFO (Worker_stopped (worker_id self)))
                      (close ((connect ;; worker_loop fuel self) w1).2).2)
            end) in Hs.
  clear Hstart. split; [|split].
  - rewrite Hs.
    destruct ((connect ;; worker_loop fuel self) w1) as [[[]|e] w2];
      cbn [fst snd]; intros Hne; try done;
      (split; [apply close_run|]); cbn [log add_log]; by rewrite last_snoc.
  - intros e He. rewrite Hs. unfold bind.
    assert (queue (connect w1).2 = queue w /\ committed (connect w1).2 = committed w)
      as [Hq Hc].
    { split.
      - by apply (invariant_connect (fun w' => queue w' = queue w)).
      - by apply (invariant_connect (fun w' => committed w' = committed w)). }
    destruct (connect w1) as [[[]|e'] w2]; [done|].
    cbn [fst snd] in He, Hq, Hc |- *. injection He as ->.
    destruct (close_run w2) as (_ & _ & _ & Hc' & Hq').
    cbn [queue committed add_log]. by rewrite Hq', Hc'.
  - intros Hv. rewrite Hs. unfold bind.
    destruct (connect w1) as [[[]|e'] w2]; [|done]. cbn [fst snd].
    by destruct (worker_loop fuel self w2) as [[[]|e] w3].
Qed.

(** ** What can end the loop *)

(** No call is scripted to fail any more. *)
Definition faultless (w : World) : Prop := script w = [].

(** From a faultless world [m] leaves a faultless world, and what it raises
    is no [psycopg2.Error]. *)
Definition contained {A} (m : M A) : Prop :=
  forall w,
    faultless w ->
    faultless (m w).2
    /\ forall e, (m w).1 = Raise e -> is_psycopg2_Error e = false.

Lemma contained_ret {A} (a : A) : contained (ret a).
Proof. by intros w Hw. Qed.

Lemma contained_raise {A} e :
  is_psycopg2_Error e = false -> contained (@raise A e).
Proof. intros He w Hw. split; [done|]. by intros e' [= <-]. Qed.

Lemma contained_lift {A} (r : result A) :
  (forall e, r = Raise e -> is_psycopg2_Error e = false) -> contained (lift r).
Proof. intros Hr w Hw. split; [done|]. intros e. apply Hr. Qed.

Lemma contained_gets {A} (f : World -> A) : contained (gets f).
Proof. by intros w Hw. Qed.

Lemma contained_modify (g : World -> World) :
  (forall w, script (g w) = script w) -> contained (modify g).
Proof.
  intros Hg w Hw. split; [|done]. unfold faultless, modify. cbn [snd].
  by rewrite Hg.
Qed.

Lemma contained_ext c : contained (ext c).
Proof. intros w Hw. unfold ext. rewrite Hw. done. Qed.

Lemma contained_bind {A B} (m : M A) (k : A -> M B) :
  contained m -> (forall a, contained (k a)) -> contained (bind m k).
Proof.
  intros Hm Hk w Hw. unfold bind. specialize (Hm w Hw).
  destruct (m w) as [[a|e] w1]; [apply Hk, Hm|].
  destruct Hm as [Hs He]. split; [done|]. intros e' [= <-]. by apply He.
Qed.

Lemma contained_try_except {A} (m : M A) (h : exception -> M A) :
  contained m -> (forall e, contained (h e)) -> contained (try_except m h).
Proof.
  intros Hm Hh w Hw. unfold try_except. specialize (Hm w Hw).
  destruct (m w) as [[a|e] w1]; [|apply Hh, Hm].
  split; [apply Hm|done].
Qed.

Lemma contained_try_finally {A} (m : M A) (f : M unit) :
  contained m -> contained f -> contained (try_finally m f).
Proof.
  intros Hm Hf w Hw. unfold try_finally. specialize (Hm w Hw).
  destruct (m w) as [r w1]. destruct Hm as [Hs He]. specialize (Hf w1 Hs).
  destruct Hf as [Hs' He']. destruct (f w1) as [[[]|e] w2].
  - split; [exact Hs'|exact He].
  - split; [exact Hs'|]. intros e' [= <-]. by apply He'.
Qed.

Lemma contained_when b (m : M unit) : contained m -> contained (when b m).
Proof. intros Hm. destruct b; [done|apply contained_ret]. Qed.

Ltac contained_steps :=
  repeat first
    [ assumption
    | match goal with H : _ |- contained _ => apply H end
    | apply contained_ret
    | apply contained_raise; reflexivity
    | apply contained_gets
    | apply contained_ext
    | apply contained_modify; intros ?; reflexivity
    | apply contained_when
    | apply contained_bind; [|intros ?]
    | apply contained_try_except; [|intros ?]
    | apply contained_try_finally
    | progress cbv zeta
    | match goal with
      | |- contained (match ?x with _ => _ end) => destruct x
      | |- contained (if ?b then _ else _) => destruct b
      end ].

Lemma contained_get_cursor : contained get_cursor.
Proof.
  unfold get_cursor, is_connected, reconnect, close, connect, cursor, execute,
    cursor_close, logger_info.
  contained_steps.
Qed.

Lemma contained_writes id status error emb :
  contained (_update_track_status id status)
  /\ contained (_mark_failed id error)
  /\ contained (_store_embedding id emb).
Proof.
  pose proof contained_get_cursor as Hcursor.
  unfold _update_track_status, _mark_failed, _store_embedding, cursor_close,
    utcnow, execute, commit, rollback, logger_error, traceback_print_exc.
  split; [|split]; contained_steps.
Qed.

(** The embedding methods catch what the model raises, whatever it is. *)
Lemma contained_analyzer self audio_path :
  contained (get_audio_embedding self audio_path).
Proof.
  intros w Hw. destruct (model self) as [m|] eqn:Hm.
  - rewrite (get_audio_embedding_run self m) by done. cbn zeta.
    destruct (bool_decide _); [|done].
    destruct (get_audio_embedding_from_filelist m [audio_path])
      as [[|native rest]|e]; try done.
    unfold warn_unless_512. by destruct (_ =? _)%nat.
  - destruct (get_embedding_not_loaded self Hm) as [-> _].
    split; [done|]. by intros e [= <-].
Qed.

Lemma contained_process_job self : contained (_process_job self).
Proof.
  assert (forall id status, contained (_update_track_status id status))
    as Hstatus by (intros; by apply (contained_writes _ _ "" (np_zeros 0))).
  assert (forall id error, contained (_mark_failed id error))
    as Hfailed by (intros; by apply (contained_writes _ "" _ (np_zeros 0))).
  assert (forall id emb, contained (_store_embedding id emb))
    as Hstore by (intros; by apply (contained_writes _ "" "")).
  pose proof contained_analyzer as Haudio.
  assert (forall raw, contained (lift (json_loads raw))) as Hloads
    by (intros []; apply contained_lift; intros e [= <-]; done).
  assert (forall job key, contained (lift (get job key))) as Hget
    by (intros [|fields] key; apply contained_lift; intros e [= <-]; done).
  assert (forall job key d, contained (lift (get_default job key d))) as Hgetd
    by (intros [|fields] key d; apply contained_lift; intros e [= <-]; done).
  unfold _process_job, blpop, logger_warning, logger_info.
  contained_steps.
Qed.

Lemma iteration_faultless self w :
  faultless w ->
  (iteration self w).1 = Val tt /\ faultless (iteration self w).2.
Proof.
  intros Hw. destruct (contained_process_job self w Hw) as [Hs He].
  unfold iteration, try_except.
  destruct (_process_job self w) as [[[]|e] w1]; [done|].
  rewrite (He e eq_refl). done.
Qed.

(** X15.  Without a failing call to the database driver or to Redis, no
    exception leaves the loop: whatever the messages on the queue, with or
    without a loaded model, a reachable file or a database URL, every turn
    of the loop returns, and the loop goes on until it is asked to stop. *)
Theorem worker_loop_survives_bad_jobs self w :
  faultless w ->
  (iteration self w).1 = Val tt
  /\ forall fuel,
       (worker_loop fuel self w).1 = Val Running
       \/ ((worker_loop fuel self w).1 = Val Finished /\ stop_in w <> None).
Proof.
  intros Hw. split; [by apply iteration_faultless|].
  intros fuel. revert w Hw. induction fuel as [|fuel IH]; intros w Hw;
    [by left|].
  rewrite worker_loop_turn. unfold is_set.
  assert (forall w0, faultless w0 -> stop_in w0 = None \/ stop_in w <> None ->
            (match iteration self w0 with
             | (Val _, w1) => worker_loop fuel self w1
             | (Raise e, w1) => (Raise e, w1)
             end).1 = Val Running
            \/ ((match iteration self w0 with
                 | (Val _, w1) => worker_loop fuel self w1
                 | (Raise e, w1) => (Raise e, w1)
                 end).1 = Val Finished /\ stop_in w <> None)) as Hturn.
  { intros w0 H0 Hstop. destruct (iteration_faultless self w0 H0) as [Hr Hs].
    pose proof (iteration_stop_in self w0) as Hkeep.
    destruct (iteration self w0) as [[[]|e] w1]; [|done].
    cbn [snd] in Hs, Hkeep. destruct (IH w1 Hs) as [Hrun|[Hfin Hsome]];
      [by left|right].
    split; [done|]. destruct Hstop as [Hnone|Hsome']; [|done].
    by rewrite Hkeep, Hnone in Hsome. }
  destruct (stop_in w) as [[|n]|] eqn:Hstop.
  - right. done.
  - apply Hturn; [done|by right].
  - apply Hturn; [done|by left].
Qed.

(** ** The text-embedding handler *)

Lemma handle_message_store self message w :
  committed (_handle_message self message w).2 = committed w
  /\ conn (_handle_message self message w).2 = conn w
  /\ queue (_handle_message self message w).2 = queue w.
Proof.
  set (P := fun w' : World =>
              committed w' = committed w /\ conn w' = conn w
              /\ queue w' = queue w).
  assert (invariant P (_handle_message self message)) as Hinv;
    [|by apply (Hinv w)].
  assert (forall c, invariant P (ext c)) as Hext.
  { intros c w' Hw'. unfold ext. by destruct (script w') as [|[e|] rest]. }
  assert (forall a, invariant P (pad_to_1024 a)) as Hpad.
  { intros a. unfold pad_to_1024.
    destruct (_ <? _)%nat; invariant_steps same_session. }
  assert (forall a text, invariant P (get_text_embedding a text)) as Htext.
  { intros a text.
    unfold get_text_embedding, infer, note, logger_error, traceback_print_exc.
    destruct (model a); invariant_steps same_session. }
  unfold _handle_message, logger_warning, logger_info, logger_error,
    traceback_print_exc.
  invariant_steps same_session.
Qed.

(** X16.  The handler of text-embedding requests never raises and never
    touches the database or the job queue, whatever the message, the state
    of the model or of Redis.  It publishes at most one response per
    message, and makes no call at all when the model is not loaded. *)
Theorem handle_message_never_raises self message w :
  (_handle_message self message w).1 = Val tt
  /\ committed (_handle_message self message w).2 = committed w
  /\ conn (_handle_message self message w).2 = conn w
  /\ queue (_handle_message self message w).2 = queue w
  /\ (exists published,
        publish_calls (trace (_handle_message self message w).2)
        = publish_calls (trace w) ++ published
        /\ length published <= 1)
  /\ (model (handler_analyzer self) = None ->
      trace (_handle_message self message w).2 = trace w).
Proof.
  destruct (handle_message_store self message w) as (Hc & Hn & Hq).
  split; [|split; [done|split; [done|split; [done|]]]].
  { unfold _handle_message, try_except.
    match goal with |- (match ?b with _ => _ end).1 = _ =>
      destruct b as [[[]|e] w1] end; done. }
  assert (forall fields,
            message = Object fields -> truthy (fields !! "requestId") = false ->
            trace (_handle_message self message w).2 = trace w) as Hmissing.
  { intros fields -> Hid. unfold _handle_message, try_except, bind, lift.
    cbn [json_loads get get_default]. rewrite Hid. done. }
  assert (model (handler_analyzer self) = None ->
          trace (_handle_message self message w).2 = trace w) as Hunloaded.
  { intros Hm. destruct message as [| |fields]; [done|done|].
    destruct (truthy (fields !! "requestId")) eqn:Hid; [|by eapply Hmissing].
    unfold _handle_message, try_except, bind, lift, logger_info, modify.
    cbn [json_loads get get_default]. rewrite Hid. cbn [negb].
    destruct (get_embedding_not_loaded (handler_analyzer self) Hm) as [_ ->].
    done. }
  split; [|done].
  assert (trace (_handle_message self message w).2 = trace w ->
          exists published,
            publish_calls (trace (_handle_message self message w).2)
            = publish_calls (trace w) ++ published
            /\ length published <= 1) as Hnone.
  { intros ->. exists []. rewrite app_nil_r. split; [done|cbn; lia]. }
  destruct message as [| |fields]; [by apply Hnone|by apply Hnone|].
  destruct (truthy (fields !! "requestId")) eqn:Hid;
    [|by apply Hnone, (Hmissing fields)].
  destruct (model (handler_analyzer self)) as [m|] eqn:Hm;
    [|by apply Hnone, Hunloaded].
  destruct (handle_message_run self m fields w Hm Hid)
    as (emb & w1 & response & Hrun & _ & Htrace & _).
  destruct (get_text_embedding_loaded (handler_analyzer self) m
              (default "" (fields !! "text"))
              (add_log
                 (logger INFO
                    (Processing_text_embed_request
                       (default "" (fields !! "requestId")))) w) Hm)
    as (emb' & w1' & Hrun' & _ & Hpub & _).
  rewrite Hrun in Hrun'. injection Hrun' as <- <-.
  eexists. rewrite Htrace, publish_calls_app, Hpub. split; [done|].
  cbn. lia.
Qed.

(** ** The analyzer *)

(** X17.  A native audio row whose width is not 512 is only warned about: the
    vector is still padded and returned, and the log grows by exactly that
    warning; a row of width 512 adds nothing to the log.  The text method
    has no such check and logs nothing for any width. *)
Theorem unexpected_dimension_is_only_warned self m audio_path text native rest w :
  model self = Some m ->
  (audio_path ∈ files w ->
   get_audio_embedding_from_filelist m [audio_path] = Val (native :: rest) ->
   (get_audio_embedding self audio_path w).1 = Val (Some (zero_padded native))
   /\ log (get_audio_embedding self audio_path w).2
      = log w
        ++ (if (shape0 native =? 512)%nat then []
            else [logger WARNING
                    (Unexpected_embedding_dimension (shape0 native))]))
  /\ (whitespace_only text = false ->
      module_get_text_embedding m [text] = Val (native :: rest) ->
      (get_text_embedding self text w).1 = Val (Some (zero_padded native))
      /\ log (get_text_embedding self text w).2 = log w).
Proof.
  intros Hm. split.
  - intros Hfile Hrow. rewrite (get_audio_embedding_run self m) by done.
    cbn zeta. rewrite bool_decide_eq_true_2 by done. rewrite Hrow.
    unfold warn_unless_512.
    destruct (shape0 native =? 512)%nat; cbn; by rewrite ?app_nil_r.
  - intros Htext Hrow. rewrite (get_text_embedding_run self m) by done.
    rewrite Htext. cbn zeta. by rewrite Hrow.
Qed.

(** X18.  A vector the analyzer returned goes through the padding and the
    conversion to float32 unchanged, so building it twice is building it
    once; its width is the larger of the native width and 1024. *)
Theorem padding_is_idempotent native w :
  pad_to_1024 (zero_padded native) w = (Val (zero_padded native), w)
  /\ astype_float32 (zero_padded native) = zero_padded native
  /\ zero_padded (zero_padded native) = zero_padded native
  /\ shape0 (zero_padded native) = Nat.max (shape0 native) 1024.
Proof.
  pose proof (shape0_zero_padded native) as Hshape.
  assert (astype_float32 (zero_padded native) = zero_padded native) as Hast
    by done.
  split; [|split; [done|split; [|done]]].
  - unfold pad_to_1024.
    destruct (Nat.ltb_spec (shape0 (zero_padded native)) 1024); [lia|done].
  - unfold zero_padded at 1. rewrite Hshape.
    replace (1024 - shape0 native `max` 1024) with 0 by lia.
    cbn [replicate]. by rewrite app_nil_r.
Qed.



(** ** The retry counter *)

(** The failures of a track, one UPDATE after the other. *)
Definition failures (errors : list string) (id : string) (rows : list TrackRow)
  : list TrackRow :=
  foldl (fun rows error => update_failed error id rows) rows errors.

(** X20.  The retry counter counts the failures: after one failure UPDATE per
    given error, a row of the track is "failed", carries the last error, and
    its counter is the former one, NULL counting as 0, plus the number of
    failures; the rows of other tracks are as before. *)
Theorem retry_count_counts_failures errors id rows i r :
  rows !! i = Some r ->
  (Track_id r <> id -> failures errors id rows !! i = Some r)
  /\ (Track_id r = id -> errors <> [] ->
      failures errors id rows !! i
      = Some {| Track_id := id;
                analysisStatus := Some "failed";
                analysisError := last errors;
                analysisRetryCount :=
                  Some (COALESCE (analysisRetryCount r) 0
                        + Z.of_nat (length errors))%Z |}).
Proof.
  intros Hrow. split.
  - intros Hne. unfold failures. revert rows Hrow.
    induction errors as [|error errors IH]; intros rows Hrow; [done|].
    cbn [foldl]. apply IH. rewrite (update_failed_lookup _ _ _ _ _ Hrow).
    by rewrite (proj2 (String.eqb_neq _ _) Hne).
  - intros Hid Hne. unfold failures. revert rows r Hrow Hid.
    induction errors as [|error errors IH]; intros rows r Hrow Hid; [done|].
    cbn [foldl].
    pose proof (update_failed_lookup error id rows i r Hrow) as Hstep.
    rewrite (proj2 (String.eqb_eq _ _) Hid) in Hstep.
    destruct errors as [|error' errors].
    + cbn [foldl last length]. rewrite Hstep. unfold failed_row.
      by rewrite Hid.
    + rewrite (IH ltac:(done) _ _ Hstep) by (cbn; done).
      f_equal. cbn [failed_row analysisRetryCount COALESCE default].
      f_equal. f_equal. cbn [length]. unfold Datatypes.id. lia.
Qed.

End Analyzer.

(** * Concrete runs

    Scalars are taken to be integers and the float32 conversion the
    identity; [clap width] is a model whose rows have [width] elements. *)

Definition cfg0 : Config :=
  {| REDIS_URL := "redis://localhost:6379";
     DATABASE_URL := "postgresql://lidify@db/lidify";
     MUSIC_PATH := "/music";
     SLEEP_INTERVAL := 5 |}.

Definition row (width : nat) : ndarray Z :=
  {| arr_dtype := float32; tolist := replicate width 1%Z |}.

Definition clap (width : nat) : CLAP_Module Z :=
  {| get_audio_embedding_from_filelist := fun l => Val (map (fun _ => row width) l);
     module_get_text_embedding := fun l => Val (map (fun _ => row width) l) |}.

Definition loaded (width : nat) : CLAPAnalyzer Z :=
  {| model := Some (clap width) |}.

Definition pending_track (id : string) : TrackRow :=
  {| Track_id := id; analysisStatus := Some "pending";
     analysisError := None; analysisRetryCount := None |}.

(** A connected worker, one track row, one audio file, no fault to come. *)
Definition world0 : World Z :=
  {| files := {["/music/album/song.mp3"]};
     committed := {| Track := [pending_track "t1"]; track_embeddings := [] |};
     conn := Some {| transaction := None |};
     queue := [];
     clock := 0;
     stop_in := None;
     script := [];
     trace := [];
     log := [] |}.










(** A message of 600 characters is stored cut to 500, and a second failure
    brings the retry count to 2. *)
Example mark_failed_truncates :
  let error := String.string_of_list_ascii (replicate 600 "x"%char) in
  let w := (_mark_failed Z cfg0 "t1" error
              (_mark_failed Z cfg0 "t1" error world0).2).2 in
  ((fun r => (String.length <$> analysisError r, analysisRetryCount r)) <$>
     Track Z (committed Z w))
  = [(Some 500, Some 2%Z)].
Proof. vm_compute. reflexivity. Qed.


Definition worker0 : Worker Z := {| worker_id := 0; analyzer := loaded 512 |}.

(** The job {"trackId": "t1", "filePath": "album/song.mp3"}. *)
Definition job_t1 : gmap string string :=
  <["trackId" := "t1"]> (<["filePath" := "album/song.mp3"]> ∅).

Definition connection_lost : exception :=
  Psycopg2Error "server closed the connection unexpectedly".

Definition with_queue (q : list payload) (s : list (option exception))
  : World Z :=
  set_script Z s (set_queue Z q world0).




(** C9, witness: the job {"filePath": "album/song.mp3"}, without
    [trackId]. *)
Lemma invalid_job_discarded_witness :
  let job : gmap string string := <["filePath" := "album/song.mp3"]> ∅ in
  let w := with_queue [Object job] [] in
  committed Z (_process_job Z 0%Z id cfg0 worker0 w).2 = committed Z w.
Proof.
  intros job w.
  exact (proj1 (proj2 (proj2 (invalid_job_discarded Z 0%Z id cfg0 worker0 job w
                                (blpop Z ANALYSIS_QUEUE 5 w).2
                                eq_refl eq_refl)))).
Defined.

(** C10, witness: the job {"trackId": "t1", "filePath": "\etc\passwd"}
    resolves to "/etc/passwd", outside the media root "/music". *)
Lemma path_resolution_witness :
  let job : gmap string string :=
    <["trackId" := "t1"]> (<["filePath" := "\etc\passwd"]> ∅) in
  os_path_join (MUSIC_PATH cfg0) (replace "\" "/" (default "" (job !! "filePath")))
  = "/etc/passwd".
Proof.
  intros job.
  exact (proj1 (proj2 (proj2 (path_resolution Z 0%Z id cfg0 worker0 job
                                (with_queue [Object job] [])
                                (blpop Z ANALYSIS_QUEUE 5
                                   (with_queue [Object job] [])).2
                                eq_refl eq_refl)))
           eq_refl).
Defined.

(** The database is down when the first job arrives and stays down. *)
Definition world_down : World Z :=
  with_queue [Object job_t1]
    [None; Some connection_lost; None; Some connection_lost;
     Some connection_lost].

(** C8, the failing run: the stop flag is never set; the first job finds the
    database down, [_process_job] raises the psycopg2 error, and the
    [reconnect] of the [except psycopg2.Error] block raises in turn.  The
    exception leaves the loop, whatever the number of iterations allowed,
    without a pause and with the stop flag still unset. *)
Theorem worker_loop_ends_on_failed_reconnect fuel :
  stop_in Z world_down = None
  /\ worker_loop Z 0%Z id cfg0 (S fuel) worker0 world_down
     = (Raise connection_lost,
        (worker_loop Z 0%Z id cfg0 1 worker0 world_down).2)
  /\ stop_in Z (worker_loop Z 0%Z id cfg0 1 worker0 world_down).2 = None
  /\ (time_sleep Z 5, true)
     ∉ trace Z (worker_loop Z 0%Z id cfg0 1 worker0 world_down).2.
Proof.
  split; [reflexivity|].
  split; [vm_compute; reflexivity|].
  split; [vm_compute; reflexivity|].
  vm_compute. intros H. repeat (apply elem_of_cons in H as [H|H]; [discriminate|]).
  by apply elem_of_nil in H.
Qed.

(** The same outage seen from [start]: the worker connects, takes the job,
    and the thread ends: the [finally] block has run and "stopped" is the
    last line of the log, although the stop flag was never set. *)
Example start_ends_on_failed_reconnect fuel :
  let w := with_queue [Object job_t1]
             ([None; None; None]
              ++ [None; Some connection_lost; None; Some connection_lost;
                  Some connection_lost]) in
  (start Z 0%Z id cfg0 (S fuel) worker0 w).1 = Raise connection_lost
  /\ last (log Z (start Z 0%Z id cfg0 (S fuel) worker0 w).2)
     = Some (logger INFO (Worker_stopped 0))
  /\ stop_in Z (start Z 0%Z id cfg0 (S fuel) worker0 w).2 = None.
Proof.
  intros w. split; [vm_compute; reflexivity|].
  split; vm_compute; reflexivity.
Qed.

(** * Concrete runs of the further properties *)

(** [world0] with the stop flag due in [n] looks. *)
Definition stopping (n : nat) : World Z := set_stop_in Z (Some n) world0.

Definition disconnected : World Z := set_conn Z None world0.

Definition cfg_without_database : Config :=
  {| REDIS_URL := "redis://localhost:6379";
     DATABASE_URL := "";
     MUSIC_PATH := "/music";
     SLEEP_INTERVAL := 5 |}.

Definition unloaded : CLAPAnalyzer Z := {| model := None |}.

Definition handler_unloaded : TextEmbedHandler Z :=
  {| handler_analyzer := unloaded |}.

(** X1, witness: a flag already set ends the loop at once; a flag due at
    the second look ends a loop of three turns. *)
Lemma worker_loop_cooperative_stop_witness :
  worker_loop Z 0%Z id cfg0 1 worker0 (stopping 0)
  = (Val Finished, stopping 0)
  /\ (worker_loop Z 0%Z id cfg0 3 worker0 (stopping 1)).1 <> Val Running.
Proof.
  split.
  - apply (proj1 (worker_loop_cooperative_stop Z 0%Z id cfg0 worker0)).
    reflexivity.
  - apply (proj1 (proj2 (worker_loop_cooperative_stop Z 0%Z id cfg0 worker0))
             1 3 (stopping 1)); [reflexivity|lia].
Defined.

(** X2, witness: without a connection the probe answers false and does
    nothing. *)
Lemma is_connected_probe_witness :
  is_connected Z disconnected = (Val false, disconnected).
Proof.
  apply (proj1 (proj2 (proj2 (proj2 (is_connected_probe Z disconnected))))).
  reflexivity.
Defined.

(** X3, witness: closing the connection of [world0] is one call. *)
Lemma close_always_disconnects_witness :
  trace Z (close Z world0).2 = [(conn_close Z, true)].
Proof.
  apply (proj2 (proj2 (proj2 (proj2 (proj2 (close_always_disconnects Z world0)))))).
  discriminate.
Defined.

(** X4, witness: no connection is tried without a database URL. *)
Lemma connect_outcomes_witness :
  connect Z cfg_without_database disconnected
  = (Raise (ValueError "DATABASE_URL not set"), disconnected).
Proof.
  apply (proj1 (connect_outcomes Z cfg_without_database disconnected)).
  reflexivity.
Defined.

(** X5, witness: a reconnect that goes through. *)
Lemma reconnect_starts_afresh_witness :
  conn Z (reconnect Z cfg0 world0).2 = Some {| transaction := None |}.
Proof.
  apply (proj2 (proj2 (proj2 (reconnect_starts_afresh Z 0%Z id cfg0 world0)))).
  reflexivity.
Defined.

(** X6, witness: on a live connection [get_cursor] makes the probe and
    opens the cursor on the same connection. *)
Lemma get_cursor_reuses_connection_witness :
  view Z (get_cursor Z cfg0 world0).2 = view Z world0
  /\ trace Z (get_cursor Z cfg0 world0).2
     = [(conn_cursor Z, true); (cursor_execute Z (SELECT_1 Z), true);
        (conn_cursor Z, true)].
Proof.
  apply (proj1 (proj2 (proj2 (proj2 (get_cursor_reuses_connection Z cfg0 world0))))).
  - discriminate.
  - apply Forall_nil_2.
Defined.

(** X7, witness: the status of track "t1" set to "processing". *)
Lemma update_track_status_sets_status_witness :
  (_update_track_status Z cfg0 "t1" "processing" world0).1 = Val tt.
Proof.
  apply (update_track_status_sets_status Z cfg0 "t1" "processing" world0
           (get_cursor Z cfg0 world0).2); reflexivity.
Defined.

(** X8, witness: the three writes on [world0]. *)
Lemma writes_are_all_or_nothing_witness :
  idle Z (_update_track_status Z cfg0 "t1" "processing" world0).2
  /\ idle Z (_mark_failed Z cfg0 "t1" "Failed to store embedding" world0).2
  /\ idle Z (_store_embedding Z cfg0 "t1" (row 3) world0).2.
Proof.
  apply (writes_are_all_or_nothing Z cfg0 "t1" "processing"
           "Failed to store embedding" (row 3) world0).
  reflexivity.
Defined.

(** X9, witness: the job of track "t1". *)
Lemma worker_leaves_no_open_transaction_witness :
  idle Z (_process_job Z 0%Z id cfg0 worker0 (with_queue [Object job_t1] [])).2.
Proof.
  refine (proj1 (worker_leaves_no_open_transaction Z 0%Z id cfg0 worker0
                   (with_queue [Object job_t1] []) _)).
  reflexivity.
Defined.

(** X10, witness: [world0] has an empty queue. *)
Lemma empty_queue_is_a_no_op_witness :
  (_process_job Z 0%Z id cfg0 worker0 world0).1 = Val tt.
Proof.
  apply (empty_queue_is_a_no_op Z 0%Z id cfg0 worker0 world0); reflexivity.
Defined.

(** X11, witness: a message that is not JSON. *)
Lemma malformed_message_is_skipped_witness :
  (iteration Z 0%Z id cfg0 worker0 (with_queue [Unparsable] [])).1 = Val tt.
Proof.
  apply (malformed_message_is_skipped Z 0%Z id cfg0 worker0 Unparsable
           (with_queue [Unparsable] [])
           (blpop Z ANALYSIS_QUEUE 5 (with_queue [Unparsable] [])).2).
  - reflexivity.
  - left. reflexivity.
Defined.

(** X13, witness: the job of track "t1" on the one track of [world0]. *)
Lemma worker_keeps_the_tracks_witness :
  same_tracks Z ["t1"]
    (committed Z
       (_process_job Z 0%Z id cfg0 worker0 (with_queue [Object job_t1] [])).2).
Proof.
  refine (proj1 (worker_keeps_the_tracks Z 0%Z id cfg0 ["t1"] worker0
                   (with_queue [Object job_t1] []) _ _)).
  - reflexivity.
  - split; [reflexivity|apply NoDup_nil_2].
Defined.

(** X14, witness: a worker stopped before its first turn. *)
Lemma start_closes_the_connection_witness :
  conn Z (start Z 0%Z id cfg0 1 worker0 (stopping 0)).2 = None
  /\ last (log Z (start Z 0%Z id cfg0 1 worker0 (stopping 0)).2)
     = Some (logger INFO (Worker_stopped 0)).
Proof.
  apply (proj1 (start_closes_the_connection Z 0%Z id cfg0 1 worker0
                  (stopping 0) eq_refl)).
  vm_compute. discriminate.
Defined.

(** X15, witness: two malformed messages. *)
Lemma worker_loop_survives_bad_jobs_witness :
  (iteration Z 0%Z id cfg0 worker0 (with_queue [Unparsable; NonObject] [])).1
  = Val tt.
Proof.
  apply (worker_loop_survives_bad_jobs Z 0%Z id cfg0 worker0
           (with_queue [Unparsable; NonObject] [])).
  reflexivity.
Defined.

(** X16, witness: a request to a handler whose model is not loaded. *)
Lemma handle_message_never_raises_witness :
  let request : gmap string string :=
    <["requestId" := "r1"]> (<["text" := "upbeat synth"]> ∅) in
  trace Z (_handle_message Z 0%Z id handler_unloaded (Object request) world0).2
  = trace Z world0.
Proof.
  intros request.
  apply (handle_message_never_raises Z 0%Z id handler_unloaded
           (Object request) world0).
  reflexivity.
Defined.

(** X17, witness: an audio row of 3 elements. *)
Lemma unexpected_dimension_is_only_warned_witness :
  log Z (get_audio_embedding Z 0%Z id (loaded 3) "/music/album/song.mp3"
           world0).2
  = [logger WARNING (Unexpected_embedding_dimension 3)].
Proof.
  apply (proj1 (unexpected_dimension_is_only_warned Z 0%Z id (loaded 3)
                  (clap 3) "/music/album/song.mp3" "upbeat synth" (row 3) []
                  world0 eq_refl)).
  - by apply elem_of_singleton.
  - reflexivity.
Defined.


(** X20, witness: two failures of track "t1", whose counter was NULL. *)
Lemma retry_count_counts_failures_witness :
  failures ["Failed to generate embedding"; "Failed to store embedding"] "t1"
    [pending_track "t1"] !! 0
  = Some {| Track_id := "t1"; analysisStatus := Some "failed";
            analysisError := Some "Failed to store embedding";
            analysisRetryCount := Some 2%Z |}.
Proof.
  apply (proj2 (retry_count_counts_failures
                  ["Failed to generate embedding"; "Failed to store embedding"]
                  "t1" [pending_track "t1"] 0 (pending_track "t1") eq_refl));
    [reflexivity|discriminate].
Defined.
